(** * pdf-text-search: the OCR indexing pipeline, its cache and the search engine

    A shallow embedding of [ocr/pdf_processor.py] (class [PDFProcessor]) and of
    the search entry point of [gui/main_window.py].

    Conventions of the embedding.
    - A Python [str] holding page text or a keyword is a [list ascii]; every
      [ascii] stands for the code point of the same number (U+0000 to U+00FF).
      Case folding and white space follow Python on that range.  File names,
      dictionary keys and messages are [string]s.
    - A Python [int] is a [Z]; list indices and lengths are [nat].
    - A Python [float] coordinate is an exact rational in lowest terms.
    - [dict] is stdpp's [gmap].  Keys are tagged with their Python type, since
      [0] and ["0"] are different keys of a [dict].
    - The libraries the program calls (fitz, PaddleOCR, [json], [re], [os]) are
      modelled by what they return to the program. *)

From Stdlib Require Import Ascii String QArith.
From stdpp Require Import gmap strings list fin_maps pretty sorting.

Local Open Scope Z_scope.

(** ** Python values used by the index *)

Abbreviation str := (list ascii).

Definition lit (s : string) : str := list_ascii_of_string s.

(** Keys of [word_locations]: [int] when built by [process_pages], [str] when
    read back by [json.load]. *)
Inductive pykey :=
  | KInt (n : Z)
  | KStr (s : string).

Global Instance pykey_eq_dec : EqDecision pykey.
Proof. solve_decision. Defined.

Global Instance pykey_countable : Countable pykey.
Proof.
  refine (inj_countable'
    (λ k, match k with KInt n => inl n | KStr s => inr s end)
    (λ x, match x with inl n => KInt n | inr s => KStr s end) _).
  by intros [].
Defined.

Global Instance KInt_inj : Inj (=) (=) KInt.
Proof. by intros ?? [= ->]. Qed.

Global Instance KStr_inj : Inj (=) (=) KStr.
Proof. by intros ?? [= ->]. Qed.

(** A bounding box: the 4-tuple [(x0, y0, x1, y1)] built by [process_pages], or
    the list that [json.load] returns for a JSON array. *)
Inductive box :=
  | Tuple (x0 y0 x1 y1 : Q)
  | JList (coords : list Q).

(** [(0, 0, 0, 0)] *)
Definition sentinel : box := Tuple 0 0 0 0.

Abbreviation page_locs := (gmap pykey box).
Abbreviation locations := (gmap pykey (gmap pykey box)).

(** [@dataclass class SearchResult] *)
Record SearchResult := {
  page : Z;
  context : str;
  position : Z;
  bbox : box;
}.

(** ** Text primitives: [re] with [re.IGNORECASE], slices, [str.split] *)

Module Text.

Definition code (c : ascii) : N := N_of_ascii c.

(** Simple lower-case mapping of U+0000..U+00FF: A-Z and the Latin-1 capitals
    U+00C0..U+00DE (without the multiplication sign U+00D7) move up by 32. *)
Definition lower (c : ascii) : ascii :=
  let n := code c in
  if (((65 <=? n) && (n <=? 90)) ||
      ((192 <=? n) && (n <=? 222) && negb (n =? 215)))%N
  then ascii_of_N (n + 32) else c.

(** [re.IGNORECASE] on two characters. *)
Definition eq_nocase (a b : ascii) : bool :=
  bool_decide (lower a = lower b).

(** [str.isspace] on U+0000..U+00FF. *)
Definition is_space (c : ascii) : bool :=
  let n := code c in
  (((9 <=? n) && (n <=? 13)) || ((28 <=? n) && (n <=? 32)) ||
   (n =? 133) || (n =? 160))%N.

(** The pattern [re.escape(keyword)] matches at the head of [text]: every
    character of the keyword is a literal, compared ignoring case. *)
Fixpoint match_here (kw text : str) : bool :=
  match kw, text with
  | [], _ => true
  | k :: kw', c :: text' => eq_nocase k c && match_here kw' text'
  | _ :: _, [] => false
  end.

(** [m.start() for m in re.finditer(re.escape(kw), text, re.IGNORECASE)]:
    the scan goes left to right; after a match it resumes at the end of the
    match, and one position further after an empty match.  [skip] counts the
    characters still covered by the last match, [pos] is the offset of
    [text] in the page text. *)
Fixpoint finditer_from (kw : str) (skip pos : nat) (text : str) : list nat :=
  match text with
  | [] => if match_here kw [] && bool_decide (skip = 0%nat) then [pos] else []
  | _ :: rest =>
      match skip with
      | S k => finditer_from kw k (S pos) rest
      | O =>
          if match_here kw text
          then pos :: finditer_from kw (length kw - 1) (S pos) rest
          else finditer_from kw 0 (S pos) rest
      end
  end.

Definition finditer (kw text : str) : list nat := finditer_from kw 0 0 text.

(** The replacement template [r'**\1**'] applied to one match. *)
Definition emphasis (m : str) : str := lit "**" ++ m ++ lit "**".

(** [re.sub(f'({re.escape(kw)})', r'**\1**', text, flags=re.IGNORECASE)] *)
Fixpoint re_sub_from (kw : str) (skip : nat) (text : str) : str :=
  match text with
  | [] => if match_here kw [] && bool_decide (skip = 0%nat)
          then emphasis [] else []
  | c :: rest =>
      match skip with
      | S k => re_sub_from kw k rest
      | O =>
          if match_here kw text
          then match length kw with
               | O => emphasis [] ++ c :: re_sub_from kw 0 rest
               | S n => emphasis (take (S n) text) ++ re_sub_from kw n rest
               end
          else c :: re_sub_from kw 0 rest
      end
  end.

Definition re_sub (kw text : str) : str := re_sub_from kw 0 text.

(** [text[a:b]] for [0 <= a] and [0 <= b]. *)
Definition slice (text : str) (a b : nat) : str := take (b - a) (drop a text).

(** [text.split()]: the maximal runs of characters that are not white
    space.  [cur] is the token being read, last character first. *)
Fixpoint split_from (cur : str) (text : str) : list str :=
  match text with
  | [] => match cur with [] => [] | _ => [reverse cur] end
  | c :: rest =>
      if is_space c
      then match cur with
           | [] => split_from [] rest
           | _ => reverse cur :: split_from [] rest
           end
      else split_from (c :: cur) rest
  end.

Definition split (text : str) : list str := split_from [] text.

(** [sep.join(parts)] *)
Fixpoint join (sep : str) (parts : list str) : str :=
  match parts with
  | [] => []
  | [p] => p
  | p :: ps => p ++ sep ++ join sep ps
  end.

End Text.

(** ** The processor object *)

(** One entry of an OCR line: [[quad, (text, confidence)]]. *)
Record word_info := {
  quad : list (Q * Q);
  text : str;
  confidence : Q;
}.

(** What rasterising a page and running the OCR on it gives: an exception
    (with its message) or the list of lines; a line is [None] or a list of
    entries. *)
Inductive ocr_outcome :=
  | Raises (msg : string)
  | Returns (result : list (option (list word_info))).

(** An opened document: [fitz.Document]. *)
Record pdf := {
  name : string;
  pages : list ocr_outcome;
}.

(** The signals of [PDFProcessor]. *)
Inductive signal :=
  | progress_updated (current total : Z)
  | status_updated (msg : string).

(** The fields of [PDFProcessor] that the pipeline reads and writes. *)
Record PDFProcessor := {
  current_pdf : option pdf;
  page_texts : list str;
  word_locations : locations;
}.

(** ** search_text *)

Section SearchEngine.

Import Text.

(** The body of the inner loop of [search_text] for the match that starts
    at offset [s] of [page_text]. *)
Definition result_at (wl : locations) (keyword : str) (page_num : Z)
    (page_text : str) (s : nat) : SearchResult :=
  let m_start := Z.of_nat s in
  let m_end := m_start + Z.of_nat (length keyword) in
  let start := Z.max 0 (m_start - 50) in
  let end_ := Z.min (Z.of_nat (length page_text)) (m_end + 50) in
  let context := slice page_text (Z.to_nat start) (Z.to_nat end_) in
  let context := re_sub keyword context in
  let word_index := Z.of_nat (length (split (take s page_text))) in
  let bbox := default sentinel
                (default ∅ (wl !! KInt (page_num - 1)) !! KInt word_index) in
  {| page := page_num;
     context := lit "..." ++ context ++ lit "...";
     position := m_start;
     bbox := bbox |}.

(** [for page_num, page_text in enumerate(self.page_texts, 1)] *)
Fixpoint search_pages (wl : locations) (keyword : str) (page_num : Z)
    (texts : list str) : list SearchResult :=
  match texts with
  | [] => []
  | page_text :: rest =>
      (result_at wl keyword page_num page_text <$> finditer keyword page_text)
      ++ search_pages wl keyword (page_num + 1) rest
  end.

Definition search_text (self : PDFProcessor) (keyword : str)
    : list SearchResult :=
  search_pages (word_locations self) keyword 1 (page_texts self).

End SearchEngine.

(** ** The interpreter and the file system *)

(** A JSON object of objects of arrays of numbers: the member ['locations'] of
    a cache file. *)
Abbreviation json_locations := (gmap string (gmap string (list Q))).

(** A file of the cache directory as [json.load] and the two subscripts of
    [load_pdf] see it: text that does not decode (with the message of the
    [JSONDecodeError]), or an object with its members ['texts'] and
    ['locations'] where present.  The members have the shapes that
    [process_pages] writes; files that decode to other shapes are left out. *)
Inductive cache_file :=
  | Undecodable (msg : string)
  | Decoded (texts : option (list str)) (locs : option json_locations).

(** What the program can observe of the file system.
    - [mtimes]: the text [str(os.path.getmtime(p))] of the files that exist;
    - [documents]: the pages of the files that [fitz.open] accepts;
    - [files]: the files of the cache directory. *)
Record world := {
  mtimes : gmap string string;
  documents : gmap string (list ocr_outcome);
  files : gmap string cache_file;
}.

(** [str] of an [int] used as a key, as [json.dump] writes it. *)
Definition key_str (k : pykey) : string :=
  match k with
  | KInt n => pretty n
  | KStr s => s
  end.

(** A tuple and a list are both written as a JSON array. *)
Definition json_box (b : box) : list Q :=
  match b with
  | Tuple x0 y0 x1 y1 => [x0; y0; x1; y1]
  | JList coords => coords
  end.

(** [json.dump] of [word_locations]: keys become their [str].  Two keys with
    the same [str] (an [int] and its own text) would give a duplicate member;
    [process_pages] builds the dictionary with [int] keys only. *)
Definition dump_locations (wl : locations) : json_locations :=
  kmap (M2 := gmap string) key_str
    ((λ m : page_locs, kmap (M2 := gmap string) key_str (json_box <$> m))
     <$> wl).

(** [json.load]: the keys of an object are [str], an array is a list. *)
Definition load_locations (j : json_locations) : locations :=
  kmap (M2 := gmap pykey) KStr
    ((λ m : gmap string (list Q), kmap (M2 := gmap pykey) KStr (JList <$> m))
     <$> j).

(** [json.dump({'texts': ..., 'locations': ...}, f)] *)
Definition json_dump (texts : list str) (wl : locations) : cache_file :=
  Decoded (Some texts) (Some (dump_locations wl)).

(** ** process_pages *)

(** [min(xs)] and [max(xs)]: [None] stands for the [ValueError] on an empty
    sequence. *)
Definition py_min (xs : list Q) : option Q :=
  match xs with
  | [] => None
  | x :: rest => Some (foldl (λ m y, if Qle_bool m y then m else y) x rest)
  end.

Definition py_max (xs : list Q) : option Q :=
  match xs with
  | [] => None
  | x :: rest => Some (foldl (λ m y, if Qle_bool y m then m else y) x rest)
  end.

(** [c / 2], the descaling of [fitz.Matrix(2, 2)]. *)
Definition half (c : Q) : Q := Qred (c / 2).

(** The rectangle of one OCR entry, or the message of the exception. *)
Definition word_box (bbox : list (Q * Q)) : string + box :=
  match py_min (fst <$> bbox), py_min (snd <$> bbox),
        py_max (fst <$> bbox), py_max (snd <$> bbox) with
  | Some x0, Some y0, Some x1, Some y1 =>
      inr (Tuple (half x0) (half y0) (half x1) (half y1))
  | _, _, _, _ => inl "min() arg is an empty sequence"%string
  end.

(** [for word_info in line] *)
Fixpoint line_loop (line : list word_info) (page_text : list str)
    (page_locations : page_locs) : string + (list str * page_locs) :=
  match line with
  | [] => inr (page_text, page_locations)
  | word_info :: rest =>
      match word_box (quad word_info) with
      | inl e => inl e
      | inr b =>
          let page_text := page_text ++ [text word_info] in
          line_loop rest page_text
            (<[KInt (Z.of_nat (length page_text) - 1) := b]> page_locations)
      end
  end.

(** [for line in result] *)
Fixpoint result_loop (result : list (option (list word_info)))
    (page_text : list str) (page_locations : page_locs)
    : string + (list str * page_locs) :=
  match result with
  | [] => inr (page_text, page_locations)
  | None :: _ => inl "'NoneType' object is not iterable"%string
  | Some line :: rest =>
      match line_loop line page_text page_locations with
      | inl e => inl e
      | inr (page_text, page_locations) =>
          result_loop rest page_text page_locations
      end
  end.

(** The body of the [try] of [process_pages] up to the two stores: the page
    text and the page's locations, or the message of the exception. *)
Definition ocr_page (o : ocr_outcome) : string + (str * page_locs) :=
  match o with
  | Raises msg => inl msg
  | Returns result =>
      match result_loop result [] ∅ with
      | inl e => inl e
      | inr (page_text, page_locations) =>
          inr (Text.join (lit " ") page_text, page_locations)
      end
  end.

(** [for page_num in range(total_pages)], from [page_num] on. *)
Fixpoint pages_loop (total_pages page_num : Z) (todo : list ocr_outcome)
    (self : PDFProcessor) : PDFProcessor * list signal :=
  match todo with
  | [] => (self, [])
  | o :: rest =>
      let '(self, out) :=
        match ocr_page o with
        | inr (page_text, page_locations) =>
            ({| current_pdf := current_pdf self;
                page_texts := page_texts self ++ [page_text];
                word_locations :=
                  <[KInt page_num := page_locations]> (word_locations self) |},
             [progress_updated (page_num + 1) total_pages])
        | inl e =>
            (self,
             [status_updated ("Error processing page " +:+
                              pretty (page_num + 1) +:+ ": " +:+ e)])
        end in
      let '(self, out') := pages_loop total_pages (page_num + 1) rest self in
      (self, out ++ out')
  end.

Section Pipeline.

(** The built-in [hash] on [str] of the running interpreter. *)
Variable hash : string → Z.

(** [get_cache_path]: the path of the cache file, or the message of the
    [OSError] of [os.path.getmtime] when the file is not there. *)
Definition get_cache_path (w : world) (pdf_path : string) : string + string :=
  match mtimes w !! pdf_path with
  | None =>
      inl ("[Errno 2] No such file or directory: '" +:+ pdf_path +:+ "'")%string
  | Some mtime =>
      let pdf_hash := pretty (hash (pdf_path +:+ mtime)) in
      inr ("ocr_cache/" +:+ pdf_hash +:+ ".json")%string
  end.

Definition load_error (e : string) : list signal :=
  [status_updated ("Error loading PDF: " +:+ e)].

(** [load_pdf]: the returned flag, the object afterwards, the signals. *)
Definition load_pdf (w : world) (self : PDFProcessor) (pdf_path : string)
    : bool * PDFProcessor * list signal :=
  match documents w !! pdf_path with
  | None => (false, self, load_error ("no such file: '" +:+ pdf_path +:+ "'"))
  | Some pgs =>
      let doc := {| name := pdf_path; pages := pgs |} in
      let self := {| current_pdf := Some doc;
                     page_texts := page_texts self;
                     word_locations := word_locations self |} in
      match get_cache_path w pdf_path with
      | inl e => (false, self, load_error e)
      | inr cache_path =>
          match files w !! cache_path with
          | Some (Undecodable msg) => (false, self, load_error msg)
          | Some (Decoded None _) => (false, self, load_error "'texts'")
          | Some (Decoded (Some texts) None) =>
              (false,
               {| current_pdf := Some doc;
                  page_texts := texts;
                  word_locations := word_locations self |},
               load_error "'locations'")
          | Some (Decoded (Some texts) (Some locs)) =>
              (true,
               {| current_pdf := Some doc;
                  page_texts := texts;
                  word_locations := load_locations locs |},
               [status_updated "Loaded OCR results from cache"])
          | None =>
              (true,
               {| current_pdf := Some doc;
                  page_texts := [];
                  word_locations := ∅ |},
               [])
          end
      end
  end.

(** [process_pages]: the object and the file system afterwards, the signals.
    A document without pages has length 0 and is false in [not
    self.current_pdf]. *)
Definition process_pages (w : world) (self : PDFProcessor)
    : PDFProcessor * world * list signal :=
  match current_pdf self with
  | None => (self, w, [])
  | Some doc =>
      match pages doc with
      | [] => (self, w, [])
      | _ :: _ =>
          let total_pages := Z.of_nat (length (pages doc)) in
          let self := {| current_pdf := Some doc;
                         page_texts := [];
                         word_locations := ∅ |} in
          let '(self, out) := pages_loop total_pages 0 (pages doc) self in
          match get_cache_path w (name doc) with
          | inl e =>
              (self, w, out ++ [status_updated ("Error saving cache: " +:+ e)])
          | inr cache_path =>
              (self,
               {| mtimes := mtimes w;
                  documents := documents w;
                  files := <[cache_path :=
                              json_dump (page_texts self) (word_locations self)]>
                           (files w) |},
               out)
          end
      end
  end.

End Pipeline.

(** ** The window: the two slots that call the processor *)

(** Widgets (buttons, labels, the progress bar) are not modelled. *)
Module MainWindow.

(** The slot behind the "Process PDF" button: [process_pages] runs (on the
    worker) only when [load_pdf] returned [True]. *)
Definition process_pdf (hash : string → Z) (w : world) (self : PDFProcessor)
    (pdf_path : string) : PDFProcessor * world * list signal :=
  match pdf_path with
  | EmptyString => (self, w, [])
  | _ =>
      let '(ok, self, out) := load_pdf hash w self pdf_path in
      if ok : bool
      then let '(self, w, out') := process_pages hash w self in
           (self, w, out ++ out')
      else (self, w, out)
  end.

(** The search slot: the empty keyword is turned away (the status label asks
    for a search term) and the processor is not called; [None] stands for
    that early return. *)
Definition search_text (pdf_processor : PDFProcessor) (keyword : str)
    : option (list SearchResult) :=
  match keyword with
  | [] => None
  | _ => Some (search_text pdf_processor keyword)
  end.

End MainWindow.

(** ** The viewer: page navigation and highlights *)

(** [PDFViewer] of [gui/pdf_viewer.py], wired as [MainWindow] wires it: the
    signal [page_changed] runs [MainWindow.on_page_changed], which clears
    the highlights.  Of the widgets only the page spin box is modelled,
    because its [valueChanged] signal calls back into the viewer; what is
    drawn (the bitmap, the rectangles, the zoom) is floating point and is
    left out, but for the exceptions of [render_page]. *)
Module Viewer.

Record PDFViewer := {
  current_pdf : option pdf;
  current_page : Z;
  highlights : list box;
  spin_minimum : Z;
  spin_maximum : Z;
  spin_value : Z;
}.

(** The viewer after [__init__]: a [QSpinBox] starts with the range 0..99
    and the value 0, and [setMinimum(1)] moves the value to 1. *)
Definition init : PDFViewer :=
  {| current_pdf := None; current_page := 0; highlights := [];
     spin_minimum := 1; spin_maximum := 99; spin_value := 1 |}.

(** How a method ends: it returns, or it raises (with the viewer as it is
    then); [OutOfFuel] is for the model only. *)
Inductive outcome :=
  | Ok (v : PDFViewer)
  | Raise (v : PDFViewer)
  | OutOfFuel.

Definition bind (o : outcome) (k : PDFViewer → outcome) : outcome :=
  match o with
  | Ok v => k v
  | Raise v => Raise v
  | OutOfFuel => OutOfFuel
  end.

(** [try: ... except Exception] *)
Definition catch (o : outcome) : outcome :=
  match o with
  | Raise v => Ok v
  | _ => o
  end.

Definition with_page (v : PDFViewer) (page_num : Z) : PDFViewer :=
  {| current_pdf := current_pdf v; current_page := page_num;
     highlights := highlights v; spin_minimum := spin_minimum v;
     spin_maximum := spin_maximum v; spin_value := spin_value v |}.

Definition with_highlights (v : PDFViewer) (hs : list box) : PDFViewer :=
  {| current_pdf := current_pdf v; current_page := current_page v;
     highlights := hs; spin_minimum := spin_minimum v;
     spin_maximum := spin_maximum v; spin_value := spin_value v |}.

Definition with_pdf (v : PDFViewer) (doc : pdf) : PDFViewer :=
  {| current_pdf := Some doc; current_page := current_page v;
     highlights := highlights v; spin_minimum := spin_minimum v;
     spin_maximum := spin_maximum v; spin_value := spin_value v |}.

Definition with_spin (v : PDFViewer) (lo hi value : Z) : PDFViewer :=
  {| current_pdf := current_pdf v; current_page := current_page v;
     highlights := highlights v; spin_minimum := lo;
     spin_maximum := hi; spin_value := value |}.

(** [x0, y0, x1, y1 = [... for coord in bbox]] needs four coordinates. *)
Definition drawable (b : box) : bool :=
  bool_decide (length (json_box b) = 4%nat).

(** [render_page] changes nothing of the viewer.  With a document that has
    pages it raises when the current page is no index of the document
    (fitz takes [-len <= i < len]) or when a highlight cannot be unpacked. *)
Definition render_page (v : PDFViewer) : outcome :=
  match current_pdf v with
  | None => Ok v
  | Some doc =>
      match pages doc with
      | [] => Ok v
      | _ :: _ =>
          let len := Z.of_nat (length (pages doc)) in
          if bool_decide (- len ≤ current_page v < len)
          then if forallb drawable (highlights v) then Ok v else Raise v
          else Raise v
      end
  end.

Definition set_highlights (v : PDFViewer) (hs : list box) : outcome :=
  render_page (with_highlights v hs).

Definition clear_highlights (v : PDFViewer) : outcome :=
  render_page (with_highlights v []).

(** The value a [QSpinBox] takes for [x]. *)
Definition clamp (lo hi x : Z) : Z := Z.max lo (Z.min hi x).

(** [show_page].  [page_spin.setValue] keeps the value in the range of the
    spin box and, when the value changes, emits [valueChanged], that is
    [page_spin_changed(value)], that is [show_page(value - 1)]: the
    recursive call, which [fuel] bounds. *)
Fixpoint show_page_fuel (fuel : nat) (v : PDFViewer) (page_num : Z) : outcome :=
  match fuel with
  | O => OutOfFuel
  | S fuel =>
      match current_pdf v with
      | None => Ok v
      | Some doc =>
          match pages doc with
          | [] => Ok v
          | _ :: _ =>
              if bool_decide (0 ≤ page_num < Z.of_nat (length (pages doc)))
              then
                let v := with_page v page_num in
                let value :=
                  clamp (spin_minimum v) (spin_maximum v) (page_num + 1) in
                bind (if bool_decide (value = spin_value v) then Ok v
                      else show_page_fuel fuel
                             (with_spin v (spin_minimum v) (spin_maximum v)
                                value)
                             (value - 1))
                  (λ v, bind (render_page v) clear_highlights)
              else Ok v
          end
      end
  end.

Definition show_page (v : PDFViewer) (page_num : Z) : outcome :=
  show_page_fuel 2 v page_num.

Definition page_spin_changed (v : PDFViewer) (value : Z) : outcome :=
  show_page v (value - 1).

(** The user edits the spin box. *)
Definition spin_edit (v : PDFViewer) (x : Z) : outcome :=
  let value := clamp (spin_minimum v) (spin_maximum v) x in
  if bool_decide (value = spin_value v) then Ok v
  else page_spin_changed
         (with_spin v (spin_minimum v) (spin_maximum v) value) value.

(** [page_spin.setMaximum(hi)]: the minimum gives way to a smaller maximum,
    the value is kept in the range, and a changed value is signalled. *)
Definition set_maximum (v : PDFViewer) (hi : Z) : outcome :=
  let lo := Z.min (spin_minimum v) hi in
  let value := clamp lo hi (spin_value v) in
  let v' := with_spin v lo hi value in
  if bool_decide (value = spin_value v) then Ok v'
  else page_spin_changed v' value.

(** [load_pdf]: when [fitz.open] raises nothing is assigned; an exception
    further on is caught as well. *)
Definition load_pdf (w : world) (v : PDFViewer) (pdf_path : string) : outcome :=
  match documents w !! pdf_path with
  | None => Ok v
  | Some pgs =>
      let v := with_pdf v {| name := pdf_path; pages := pgs |} in
      catch (bind (set_maximum v (Z.of_nat (length pgs)))
               (λ v, show_page v 0))
  end.

Definition previous_page (v : PDFViewer) : outcome :=
  if bool_decide (current_page v > 0)
  then show_page v (current_page v - 1)
  else Ok v.

(** [len(self.current_pdf)] raises [TypeError] without a document. *)
Definition next_page (v : PDFViewer) : outcome :=
  match current_pdf v with
  | None => Raise v
  | Some doc =>
      if bool_decide (current_page v < Z.of_nat (length (pages doc)) - 1)
      then show_page v (current_page v + 1)
      else Ok v
  end.

Definition jump_to_result (v : PDFViewer) (result : SearchResult) : outcome :=
  bind (show_page v (page result - 1))
    (λ v, set_highlights v [bbox result]).

(** What the user and the window can ask of the viewer. *)
Inductive action :=
  | Load (pdf_path : string)
  | Previous
  | Next
  | SpinEdit (x : Z)
  | Jump (result : SearchResult)
  | SetHighlights (hs : list box)
  | ClearHighlights.

Definition step (w : world) (v : PDFViewer) (a : action) : outcome :=
  match a with
  | Load pdf_path => load_pdf w v pdf_path
  | Previous => previous_page v
  | Next => next_page v
  | SpinEdit x => spin_edit v x
  | Jump result => jump_to_result v result
  | SetHighlights hs => set_highlights v hs
  | ClearHighlights => clear_highlights v
  end.

(** A run of actions; it ends at the first exception that is not caught. *)
Fixpoint run (w : world) (v : PDFViewer) (actions : list action) : outcome :=
  match actions with
  | [] => Ok v
  | a :: rest => bind (step w v a) (λ v, run w v rest)
  end.

(** The current page is a page of the document, when the document has
    pages. *)
Definition page_in_range (v : PDFViewer) : Prop :=
  match current_pdf v with
  | None => True
  | Some doc =>
      pages doc ≠ [] → 0 ≤ current_page v < Z.of_nat (length (pages doc))
  end.

(** An action that cannot raise in [v]: [Next] needs a document, a
    highlight needs four coordinates. *)
Definition safe (v : PDFViewer) (a : action) : Prop :=
  match a with
  | Next => current_pdf v ≠ None
  | Jump result => drawable (bbox result) = true
  | SetHighlights hs => forallb drawable hs = true
  | _ => True
  end.

(** The spin box can show every page of the document: its minimum is at
    most 1 and, with a document that has pages, its maximum is the number
    of pages. *)
Definition spin_in_step (v : PDFViewer) : Prop :=
  spin_minimum v ≤ 1 ∧
  match current_pdf v with
  | None => True
  | Some doc =>
      pages doc ≠ [] → spin_maximum v = Z.of_nat (length (pages doc))
  end.

(** A viewer in which nothing can go wrong when it draws. *)
Definition sound (v : PDFViewer) : Prop :=
  page_in_range v ∧ spin_in_step v ∧ forallb drawable (highlights v) = true.

(** The method ends, by returning or by raising, with a viewer that
    satisfies [P]. *)
Definition ends (P : PDFViewer → Prop) (o : outcome) : Prop :=
  match o with
  | Ok v => P v
  | Raise v => P v
  | OutOfFuel => False
  end.

Definition ends_with (P Q : PDFViewer → Prop) (o : outcome) : Prop :=
  match o with
  | Ok v => P v
  | Raise v => Q v
  | OutOfFuel => False
  end.

(** [show_page(page_num)] passes its test: there is a document, it has
    pages and [page_num] is one of them. *)
Definition shown (v : PDFViewer) (page_num : Z) : Prop :=
  ∃ doc, current_pdf v = Some doc ∧ pages doc ≠ [] ∧
         0 ≤ page_num < Z.of_nat (length (pages doc)).

End Viewer.

(** ** The zoom level *)

(** [zoom_in] and [zoom_out] compute on doubles.  A double is a rational,
    but the sum of two doubles is rounded: the operations and the two
    constants that are no doubles as written are taken as given. *)
Record floats := {
  float_add : Q → Q → Q;
  float_sub : Q → Q → Q;
  float_0_2 : Q;
  float_0_4 : Q;
}.

(** [min(a, b)] and [max(a, b)] of two numbers. *)
Definition py_min2 (a b : Q) : Q := if Qle_bool a b then a else b.

Definition py_max2 (a b : Q) : Q := if Qle_bool b a then a else b.

(** [self.zoom_level = min(3.0, self.zoom_level + 0.2)] *)
Definition zoom_in (F : floats) (zoom_level : Q) : Q :=
  py_min2 3 (float_add F zoom_level (float_0_2 F)).

(** [self.zoom_level = max(0.4, self.zoom_level - 0.2)] *)
Definition zoom_out (F : floats) (zoom_level : Q) : Q :=
  py_max2 (float_0_4 F) (float_sub F zoom_level (float_0_2 F)).

Inductive zoom_action :=
  | ZoomIn
  | ZoomOut.

Definition zoom (F : floats) (zoom_level : Q) (a : zoom_action) : Q :=
  match a with
  | ZoomIn => zoom_in F zoom_level
  | ZoomOut => zoom_out F zoom_level
  end.

(** Exact arithmetic, for an example. *)
Definition exact : floats :=
  {| float_add := Qplus; float_sub := Qminus;
     float_0_2 := 1 # 5; float_0_4 := 2 # 5 |}.

(** ** Sample indexes *)

(** An index that holds page texts and no word locations. *)
Definition index_of_texts (texts : list str) : PDFProcessor :=
  {| current_pdf := None; page_texts := texts; word_locations := ∅ |}.

Definition fox_index : PDFProcessor :=
  index_of_texts [lit "the quick brown fox"].

Definition fox_result : SearchResult :=
  {| page := 1;
     context := lit "...the **quick** brown fox...";
     position := 4;
     bbox := sentinel |}.

(** 51 times [a], then [AAA]: the keyword [aaa] matches at 0, 3, ..., 48 and
    at 51. *)
Definition run_of_a : str := replicate 51 "a"%char ++ lit "AAA".

(** ** Sample documents and file systems *)

(** An OCR entry for the text [s] with the upright rectangle from
    [(x0, y0)] to [(x1, y1)] on the bitmap. *)
Definition word (s : string) (x0 y0 x1 y1 : Q) : word_info :=
  {| quad := [(x0, y0); (x1, y0); (x1, y1); (x0, y1)];
     text := lit s;
     confidence := 1 |}.

(** A document of two pages: for the first the OCR returns [[None]] (no
    text found on the page), the second reads [hello world]. *)
Definition two_pages : list ocr_outcome :=
  [Returns [None];
   Returns [Some [word "hello" 2 4 10 8; word "world" 12 4 20 8]]].

(** A document of one page that reads [hello]. *)
Definition one_page : list ocr_outcome :=
  [Returns [Some [word "hello" 2 4 10 8]]].

Definition sample_world : world :=
  {| mtimes := {["a.pdf" := "1700000000.0"; "b.pdf" := "1700000001.5"]}%string;
     documents := {["a.pdf" := two_pages; "b.pdf" := one_page]}%string;
     files := ∅ |}.

(** The same file system with a truncated cache file for [a.pdf] (under the
    name that [length_hash] below gives it). *)
Definition corrupt_world : world :=
  {| mtimes := mtimes sample_world;
     documents := documents sample_world;
     files := {["ocr_cache/17.json" :=
                Undecodable "Expecting value: line 1 column 1 (char 0)"]}%string |}.

(** A processor as [__init__] leaves it. *)
Definition new_processor : PDFProcessor :=
  {| current_pdf := None; page_texts := []; word_locations := ∅ |}.

(** Two stand-ins for the built-in [hash] of two interpreter processes. *)
Definition length_hash (s : string) : Z := Z.of_nat (String.length s).

Definition other_hash (s : string) : Z := length_hash s + 1.

(** [b.pdf] processed by a new processor, and the file system afterwards,
    with the cache file written. *)
Definition indexed_b : PDFProcessor :=
  (MainWindow.process_pdf length_hash sample_world new_processor "b.pdf").1.1.

Definition cached_world : world :=
  (MainWindow.process_pdf length_hash sample_world new_processor "b.pdf").1.2.

(** [b.pdf] loaded again from that file system by a new processor. *)
Definition restored_b : PDFProcessor :=
  (load_pdf length_hash cached_world new_processor "b.pdf").1.2.

Definition hello_result (b : box) : SearchResult :=
  {| page := 1; context := lit "...**hello**..."; position := 0; bbox := b |}.

(** A document of one page that reads [foobar baz], and [c.pdf] processed
    by a new processor. *)
Definition foobar_page : list ocr_outcome :=
  [Returns [Some [word "foobar" 2 4 10 8; word "baz" 12 4 20 8]]].

Definition foobar_world : world :=
  {| mtimes := {["c.pdf" := "1700000002.0"]}%string;
     documents := {["c.pdf" := foobar_page]}%string;
     files := ∅ |}.

Definition foobar_index : PDFProcessor :=
  (MainWindow.process_pdf length_hash foobar_world new_processor "c.pdf").1.1.

(** The viewer after [a.pdf] has been loaded. *)
Definition viewer_a : Viewer.PDFViewer :=
  match Viewer.load_pdf sample_world Viewer.init "a.pdf" with
  | Viewer.Ok v => v
  | _ => Viewer.init
  end.

(** The text of a page after the [try] body, where it succeeds. *)
Definition page_text_of (o : ocr_outcome) : option str :=
  match ocr_page o with
  | inr (page_text, _) => Some page_text
  | inl _ => None
  end.

(** ** Notions used to state the properties *)

(** The keyword occurs in [text] at offset [i]: the [length kw] characters
    from [i] on are those of the keyword up to case. *)
Definition occurs (kw text : str) (i : nat) : Prop :=
  (i + length kw ≤ length text)%nat ∧
  Text.lower <$> Text.slice text i (i + length kw) = Text.lower <$> kw.

(** The tokens of [text.split()] with their places in [text]: the spans
    [(a, b)] of the maximal runs of characters that are not white space,
    [text[a:b]] being the token.  [start] holds the offset at which the token
    being read began, [pos] is the offset of the first character of [text]. *)
Fixpoint token_spans_from (start : option nat) (pos : nat) (text : str)
    : list (nat * nat) :=
  match text with
  | [] => match start with Some a => [(a, pos)] | None => [] end
  | c :: rest =>
      if Text.is_space c
      then match start with
           | Some a => (a, pos) :: token_spans_from None (S pos) rest
           | None => token_spans_from None (S pos) rest
           end
      else token_spans_from (Some (default pos start)) (S pos) rest
  end.

Definition token_spans (text : str) : list (nat * nat) :=
  token_spans_from None 0 text.

(** The word ordinal as the specification words it: the number of tokens of
    [text] that strictly precede offset [s], that is, that end at or before
    [s].  A token that reaches over [s] is not counted. *)
Definition tokens_preceding (text : str) (s : nat) : nat :=
  length (filter (λ span, (span.2 ≤ s)%nat) (token_spans text)).

(** Offset [s] lies inside a token: the character there and the one before
    it are not white space.  [prev] says whether a character that is not
    white space stands before offset 0. *)
Definition inside_token_from (prev : bool) (text : str) (s : nat) : bool :=
  match text !! s with
  | None => false
  | Some c =>
      negb (Text.is_space c) &&
      match s with
      | O => prev
      | S j => match text !! j with
               | Some p => negb (Text.is_space p)
               | None => false
               end
      end
  end.

Definition inside_token (text : str) (s : nat) : bool :=
  inside_token_from false text s.

(** The offset at which the token of index [k] starts in the join of
    [tokens] with single spaces. *)
Definition token_offset (tokens : list str) (k : nat) : nat :=
  (length (Text.join (lit " ") (take k tokens))
   + (match k with O => 0 | S _ => 1 end))%nat.

(** A token that [str.split] gives back as it is: not empty and without
    white space. *)
Definition clean_token (t : str) : Prop :=
  t ≠ [] ∧ Forall (λ c, Text.is_space c = false) t.

(** The entries of an OCR result, line after line. *)
Definition entries (result : list (option (list word_info))) : list word_info :=
  concat (default [] <$> result).

(** The locations of a page after the [try] body, where it succeeds. *)
Definition page_locations_of (o : ocr_outcome) : option page_locs :=
  match ocr_page o with
  | inr (_, page_locations) => Some page_locations
  | inl _ => None
  end.

(** A page that [process_pages] gets through: the OCR returned, no line is
    [None] and every entry has at least one point. *)
Definition readable (o : ocr_outcome) : Prop :=
  match o with
  | Raises _ => False
  | Returns result =>
      Forall (λ line, match line with
                      | None => False
                      | Some ws => Forall (λ w, quad w ≠ []) ws
                      end) result
  end.

(** The order of the results of a search: by page, and on a page by start
    offset, a match starting only where the one before has ended (and at
    least one character further). *)
Definition scan_before (kw : str) (r1 r2 : SearchResult) : Prop :=
  page r1 < page r2 ∨
  (page r1 = page r2 ∧
   position r1 + Z.max 1 (Z.of_nat (length kw)) ≤ position r2).

(** The signal that ends the turn of the loop of [process_pages] for the page
    of index [i]. *)
Definition page_signal (total_pages : Z) (i : nat) (o : ocr_outcome) : signal :=
  match ocr_page o with
  | inr _ => progress_updated (Z.of_nat i + 1) total_pages
  | inl e =>
      status_updated ("Error processing page " +:+
                      pretty (Z.of_nat i + 1) +:+ ": " +:+ e)
  end.

Example finditer_quick :
  Text.finditer (lit "QUICK") (lit "The Quick Brown Fox") = [4%nat].
Proof. reflexivity. Qed.

Example re_sub_empty :
  Text.re_sub [] (lit "abc") = lit "****a****b****c****".
Proof. reflexivity. Qed.

Example search_quick :
  search_text fox_index (lit "quick") = [fox_result].
Proof. reflexivity. Qed.

Example search_quick_upper :
  position <$> search_text (index_of_texts [lit "The Quick Brown Fox"])
                 (lit "QUICK") = [4].
Proof. reflexivity. Qed.

Example split_example :
  Text.split (lit "  the quick  fox ") = [lit "the"; lit "quick"; lit "fox"].
Proof. reflexivity. Qed.

(** ** Matching a literal keyword *)

Section Matching.

Import Text.

Local Open Scope nat_scope.

Variable kw : str.

Lemma match_here_spec (t : str) :
  match_here kw t = true ↔
  length kw ≤ length t ∧ lower <$> take (length kw) t = lower <$> kw.
Proof.
  revert t. induction kw as [|k kw' IH]; intros [|c t]; simpl.
  - split; [intros _; split; [lia | done] | done].
  - split; [intros _; split; [lia | done] | done].
  - split; [done | intros [? _]; lia].
  - rewrite andb_true_iff, IH. unfold eq_nocase.
    rewrite bool_decide_eq_true. split.
    + intros [Hk [Hl Ht]]. split; [lia |]. f_equal; [done | exact Ht].
    + intros [Hl Heq]. injection Heq as Hc Ht.
      split; [done | split; [lia | exact Ht]].
Qed.

Lemma match_here_occurs (text : str) (i : nat) :
  i ≤ length text → match_here kw (drop i text) = true ↔ occurs kw text i.
Proof.
  intros Hi. rewrite match_here_spec. unfold occurs, slice.
  rewrite length_drop. replace (i + length kw - i) with (length kw) by lia.
  split; intros [? ?]; (split; [lia | done]).
Qed.

Lemma match_here_take (n : nat) (t : str) :
  length kw ≤ n → match_here kw (take n t) = match_here kw t.
Proof.
  intros Hn. apply eq_true_iff_eq. rewrite !match_here_spec.
  rewrite length_take, take_take. replace (length kw `min` n) with (length kw) by lia.
  split; intros [? ?]; (split; [lia | done]).
Qed.

(** Every offset reported by the scan is a match. *)
Lemma finditer_from_sound (text : str) (skip pos x : nat) :
  x ∈ finditer_from kw skip pos text →
  ∃ j, x = pos + j ∧ skip ≤ j ≤ length text ∧
       match_here kw (drop j text) = true.
Proof.
  revert skip pos. induction text as [|c rest IH]; intros skip pos; simpl.
  - destruct (match_here kw []) eqn:E; simpl; [|by intros ?%elem_of_nil].
    case_bool_decide; [|by intros ?%elem_of_nil].
    intros ->%list_elem_of_singleton. exists 0. subst skip. by rewrite Nat.add_0_r.
  - destruct skip as [|k].
    + destruct (match_here kw (c :: rest)) eqn:E.
      * intros [->|Hx]%elem_of_cons.
        { exists 0. rewrite Nat.add_0_r. repeat split; [lia | lia | done]. }
        apply IH in Hx as (j & -> & Hj & Hm). exists (S j).
        repeat split; [lia | lia | simpl; lia | done].
      * intros Hx. apply IH in Hx as (j & -> & Hj & Hm). exists (S j).
        repeat split; [lia | lia | simpl; lia | done].
    + intros Hx. apply IH in Hx as (j & -> & Hj & Hm). exists (S j).
      repeat split; [lia | lia | simpl; lia | done].
Qed.

(** Every match is reported, or begins inside a reported match. *)
Lemma finditer_from_complete (text : str) (skip pos j : nat) :
  skip ≤ j ≤ length text →
  match_here kw (drop j text) = true →
  ∃ x, x ∈ finditer_from kw skip pos text ∧ x ≤ pos + j ∧
       (pos + j = x ∨ pos + j < x + length kw).
Proof.
  revert skip pos j. induction text as [|c rest IH]; intros skip pos j; simpl.
  - intros Hj Hm. assert (j = 0) as -> by lia. assert (skip = 0) as -> by lia.
    simpl in Hm. rewrite Hm. simpl. exists pos.
    split; [apply list_elem_of_singleton; done | lia].
  - intros Hj Hm. destruct skip as [|k].
    + destruct (match_here kw (c :: rest)) eqn:E.
      * destruct j as [|j'].
        { exists pos. split; [left | lia]. }
        destruct (decide (length kw - 1 ≤ j')) as [Hge|Hlt].
        -- destruct (IH (length kw - 1) (S pos) j') as (x & Hx & Hle & Hov);
             [lia | done |].
           exists x. split; [by right | lia].
        -- exists pos. split; [left | lia].
      * destruct j as [|j']; [simpl in Hm; congruence |].
        destruct (IH 0 (S pos) j') as (x & Hx & Hle & Hov); [lia | done |].
        exists x. split; [done | lia].
    + destruct j as [|j']; [lia |].
      destruct (IH k (S pos) j') as (x & Hx & Hle & Hov); [lia | done |].
      exists x. split; [done | lia].
Qed.

(** The reported offsets increase, two of them at least a keyword (and at
    least one character) apart. *)
Lemma finditer_from_sorted (text : str) (skip pos : nat) :
  StronglySorted (λ a b, a + 1 `max` length kw ≤ b)
    (finditer_from kw skip pos text) ∧
  Forall (λ x, pos + skip ≤ x) (finditer_from kw skip pos text).
Proof.
  revert skip pos. induction text as [|c rest IH]; intros skip pos; simpl.
  - destruct (match_here kw []); simpl; [|by split; constructor].
    case_bool_decide; [|by split; constructor].
    split; repeat constructor. lia.
  - destruct skip as [|k].
    + destruct (match_here kw (c :: rest)).
      * destruct (IH (length kw - 1) (S pos)) as [Hs Hf]. split.
        -- constructor; [done |]. eapply Forall_impl; [exact Hf |].
           simpl. intros; lia.
        -- constructor; [lia |]. eapply Forall_impl; [exact Hf |].
           simpl. intros; lia.
      * destruct (IH 0 (S pos)) as [Hs Hf]. split; [done |].
        eapply Forall_impl; [exact Hf |]. simpl. intros; lia.
    + destruct (IH k (S pos)) as [Hs Hf]. split; [done |].
      eapply Forall_impl; [exact Hf |]. simpl. intros; lia.
Qed.

End Matching.

(** ** Emphasis in the context *)

Section Emphasis.

Import Text.

Local Open Scope nat_scope.

Variable kw : str.
Hypothesis kw_nonempty : kw ≠ [].

Lemma match_here_nil : match_here kw [] = false.
Proof using kw_nonempty. by destruct kw. Qed.

(** Without a match from [skip] on, the text is copied. *)
Lemma re_sub_from_no_match (text : str) (skip : nat) :
  (∀ j, skip ≤ j ≤ length text → match_here kw (drop j text) = false) →
  re_sub_from kw skip text = drop skip text.
Proof using kw_nonempty.
  revert skip. induction text as [|c rest IH]; intros skip Hno; simpl.
  - rewrite match_here_nil. by destruct skip.
  - destruct skip as [|k].
    + pose proof (Hno 0) as H0. simpl in H0. rewrite H0 by lia. f_equal.
      rewrite IH; [done |]. intros j Hj. apply (Hno (S j)). simpl; lia.
    + simpl. apply IH. intros j Hj. apply (Hno (S j)). simpl; lia.
Qed.

(** With a single match in the text, that match is the one span that gets
    the emphasis. *)
Lemma re_sub_single (text : str) (k : nat) :
  k ≤ length text →
  match_here kw (drop k text) = true →
  (∀ j, j ≤ length text → match_here kw (drop j text) = true → j = k) →
  re_sub kw text =
    take k text ++ emphasis (take (length kw) (drop k text))
    ++ drop (k + length kw) text.
Proof using kw_nonempty.
  unfold re_sub. revert k. induction text as [|c rest IH]; intros k Hk Hm Huniq.
  - assert (k = 0) as -> by (simpl in Hk; lia).
    simpl in Hm. by rewrite match_here_nil in Hm.
  - destruct k as [|k'].
    + simpl in Hm. simpl. rewrite Hm.
      destruct (length kw) as [|n] eqn:Hlen.
      { destruct kw; [done | discriminate]. }
      rewrite re_sub_from_no_match; [done |].
      intros j Hj. destruct (match_here kw (drop j rest)) eqn:E; [|done].
      assert (S j = 0); [|lia]. apply Huniq; [simpl; lia | done].
    + simpl in Hm, Hk.
      assert (match_here kw (c :: rest) = false) as Hc.
      { destruct (match_here kw (c :: rest)) eqn:E; [|done].
        assert (0 = S k'); [|lia]. apply Huniq; [simpl; lia | done]. }
      simpl. rewrite Hc. f_equal. apply IH; [lia | done |].
      intros j Hj Hmj. assert (S j = S k'); [|lia].
      apply Huniq; [simpl; lia | done].
Qed.

End Emphasis.

(** ** Slices of the page text *)

Section Slices.

Import Text.

Local Open Scope nat_scope.

Lemma length_slice (t : str) (a b : nat) :
  b ≤ length t → length (slice t a b) = b - a.
Proof. intros. unfold slice. rewrite length_take, length_drop. lia. Qed.

Lemma take_slice (t : str) (a b s : nat) :
  s ≤ b → take (s - a) (slice t a b) = slice t a s.
Proof.
  intros. unfold slice. rewrite take_take. f_equal. lia.
Qed.

Lemma drop_slice (t : str) (a b s : nat) :
  a ≤ s → drop (s - a) (slice t a b) = slice t s b.
Proof.
  intros. unfold slice. rewrite skipn_firstn_comm, drop_drop.
  f_equal; [lia | f_equal; lia].
Qed.

(** The four clipped bounds of [result_at], as natural numbers. *)
Lemma window_start (s : nat) :
  Z.to_nat (Z.max 0 (Z.of_nat s - 50)) = s - 50.
Proof. lia. Qed.

Lemma window_end (len s k : nat) :
  Z.to_nat (Z.min (Z.of_nat len) (Z.of_nat s + Z.of_nat k + 50))
  = len `min` (s + k + 50).
Proof. lia. Qed.

End Slices.

(** ** Counting tokens *)

Section Tokens.

Import Text.

Local Open Scope nat_scope.

Lemma inside_token_from_cons (prev : bool) (c : ascii) (rest : str)
    (i : nat) :
  inside_token_from prev (c :: rest) (S i)
  = inside_token_from (negb (is_space c)) rest i.
Proof.
  unfold inside_token_from. simpl. destruct (rest !! i); [|done].
  by destruct i.
Qed.

Lemma token_spans_from_end (start : option nat) (pos : nat) (t : str)
    (span : nat * nat) :
  span ∈ token_spans_from start pos t →
  pos ≤ span.2 ∧ (start = None → pos < span.2).
Proof.
  revert start pos. induction t as [|c rest IH]; intros start pos; simpl.
  - destruct start; [|by intros ?%elem_of_nil].
    intros ->%list_elem_of_singleton. simpl. split; [lia | done].
  - destruct (is_space c).
    + destruct start.
      * intros [->|Hin]%elem_of_cons; [simpl; split; [lia | done] |].
        apply IH in Hin as [? ?]. split; [lia | done].
      * intros Hin. apply IH in Hin as [? ?]. split; lia.
    + intros Hin. apply IH in Hin as [? _]. split; lia.
Qed.

Lemma filter_none {A} (P : A → Prop) `{∀ x, Decision (P x)} (l : list A) :
  (∀ x, x ∈ l → ¬ P x) → filter P l = [].
Proof.
  induction l as [|x l IH]; intros Hno; [done |].
  rewrite filter_cons_False; [|apply Hno; left].
  apply IH. intros y Hy. apply Hno. by right.
Qed.

Lemma filter_spans_None (pos : nat) (t : str) :
  filter (λ span, span.2 ≤ pos) (token_spans_from None pos t) = [].
Proof.
  apply filter_none. intros span [_ Hlt]%token_spans_from_end.
  specialize (Hlt eq_refl). lia.
Qed.

Lemma filter_spans_later (start : option nat) (pos : nat) (t : str) :
  filter (λ span, span.2 ≤ pos) (token_spans_from start (S pos) t) = [].
Proof.
  apply filter_none. intros span [? _]%token_spans_from_end. lia.
Qed.

Lemma length_split_from_take (cur : str) (start : option nat) (pos : nat)
    (t : str) (s : nat) :
  (cur = [] ↔ start = None) →
  length (split_from cur (take s t)) =
  length (filter (λ span, span.2 ≤ pos + s) (token_spans_from start pos t))
  + (if inside_token_from (bool_decide (cur ≠ [])) t s then 1 else 0).
Proof.
  revert cur start pos s.
  induction t as [|c rest IH]; intros cur start pos s Hst.
  - assert (∀ prev, inside_token_from prev [] s = false) as ->
      by (intros prev; by destruct s).
    rewrite take_nil. simpl.
    destruct start as [a|], cur as [|x cur]; simpl;
      try (by destruct Hst as [H1 H2];
           (discriminate (H1 eq_refl) || discriminate (H2 eq_refl))).
    + rewrite filter_cons. simpl. case_decide; simpl; lia.
    + done.
  - destruct s as [|s].
    + simpl take. simpl split_from. rewrite Nat.add_0_r.
      unfold inside_token_from. simpl lookup. cbv iota beta.
      destruct start as [a|], cur as [|x cur];
        try (by destruct Hst as [H1 H2];
             (discriminate (H1 eq_refl) || discriminate (H2 eq_refl))).
      * simpl token_spans_from. destruct (is_space c) eqn:Hc; simpl negb.
        -- rewrite filter_cons. simpl. case_decide; [|lia].
           by rewrite filter_spans_later.
        -- by rewrite filter_spans_later.
      * rewrite filter_spans_None. simpl. by rewrite andb_false_r.
    + simpl take. rewrite inside_token_from_cons. simpl.
      replace (pos + S s) with (S pos + s) by lia.
      destruct (is_space c) eqn:Hc; simpl negb.
      * destruct start as [a|], cur as [|x cur];
          try (by destruct Hst as [H1 H2];
               (discriminate (H1 eq_refl) || discriminate (H2 eq_refl))).
        -- rewrite filter_cons. simpl. case_decide; [|lia]. simpl.
           by rewrite (IH [] None (S pos) s).
        -- by rewrite (IH [] None (S pos) s).
      * by rewrite (IH (c :: cur) (Some (default pos start)) (S pos) s).
Qed.

(** [len(page_text[:s].split())] is the number of tokens that precede [s],
    and one more when [s] lies inside a token: the part of that token before
    [s] is a token of the prefix. *)
Lemma word_index_tokens_preceding (page_text : str) (s : nat) :
  length (split (take s page_text)) =
  tokens_preceding page_text s + (if inside_token page_text s then 1 else 0).
Proof. by apply (length_split_from_take [] None 0). Qed.

Lemma slice_token_spans_from (pre t cur : str) (start : option nat) :
  match start with
  | None => cur = []
  | Some a => a < length pre ∧ reverse cur = drop a pre
  end →
  (λ span, slice (pre ++ t) span.1 span.2)
    <$> token_spans_from start (length pre) t
  = split_from cur t.
Proof.
  revert pre cur start.
  induction t as [|c rest IH]; intros pre cur start Hst.
  - destruct start as [a|]; simpl; [|by rewrite Hst].
    destruct Hst as [Ha Hcur].
    unfold slice. rewrite app_nil_r, take_ge by (rewrite length_drop; lia).
    rewrite <-Hcur. destruct cur as [|x cur]; [|done].
    apply (f_equal length) in Hcur. rewrite length_drop in Hcur.
    simpl in Hcur. lia.
  - specialize (IH (pre ++ [c])). rewrite <-app_assoc in IH.
    rewrite length_app in IH. simpl in IH.
    replace (length pre + 1) with (S (length pre)) in IH by lia.
    simpl. destruct (is_space c) eqn:Hc.
    + destruct start as [a|].
      * destruct Hst as [Ha Hcur]. rewrite fmap_cons, (IH [] None) by done.
        assert (slice (pre ++ c :: rest) a (length pre) = reverse cur) as Hsl.
        { unfold slice. simpl. rewrite drop_app_le by lia.
          rewrite take_app_length' by (rewrite length_drop; lia). done. }
        simpl in Hsl. simpl. rewrite Hsl. destruct cur as [|x cur]; [|done].
        apply (f_equal length) in Hcur. rewrite length_drop in Hcur.
        simpl in Hcur. lia.
      * subst cur. by apply IH.
    + apply IH. destruct start as [a|]; simpl.
      * destruct Hst as [Ha Hcur]. split; [lia |].
        rewrite reverse_cons, Hcur, drop_app_le by lia. done.
      * subst cur. split; [lia |].
        by rewrite drop_app_length.
Qed.

(** The spans are those of the tokens of [text.split()], in order. *)
Lemma token_spans_split (text : str) :
  (λ span, slice text span.1 span.2) <$> token_spans text = split text.
Proof. by apply (slice_token_spans_from [] text [] None). Qed.

End Tokens.

(** ** The results of a search *)

Section Results.

Import Text.

Variable wl : locations.
Variable kw : str.

(** The results are those of the matches of every page, the page of index
    [n] being numbered from [page_num] on. *)
Lemma elem_of_search_pages (page_num : Z) (texts : list str) (r : SearchResult) :
  r ∈ search_pages wl kw page_num texts ↔
  ∃ (n s : nat) (page_text : str),
    texts !! n = Some page_text ∧ s ∈ finditer kw page_text ∧
    r = result_at wl kw (page_num + Z.of_nat n) page_text s.
Proof.
  revert page_num. induction texts as [|t rest IH]; intros page_num; simpl.
  - split; [by intros ?%elem_of_nil | by intros (n & s & pt & ? & _)].
  - rewrite elem_of_app, list_elem_of_fmap, IH. split.
    + intros [(s & -> & Hs) | (n & s & pt & Hn & Hs & ->)].
      * exists 0%nat, s, t. by rewrite Z.add_0_r.
      * exists (S n), s, pt. repeat split; [done | done |].
        f_equal. lia.
    + intros (n & s & pt & Hn & Hs & ->). destruct n as [|n]; simpl in Hn.
      * injection Hn as ->. left. exists s. by rewrite Z.add_0_r.
      * right. exists n, s, pt. repeat split; [done | done |].
        f_equal. lia.
Qed.

Lemma search_pages_sorted (page_num : Z) (texts : list str) :
  StronglySorted (scan_before kw) (search_pages wl kw page_num texts) ∧
  Forall (λ r, page_num ≤ page r) (search_pages wl kw page_num texts).
Proof.
  revert page_num. induction texts as [|t rest IH]; intros page_num; simpl.
  - split; constructor.
  - destruct (IH (page_num + 1)) as [Hs Hf]. split.
    + apply StronglySorted_app_2; [| |done].
      * intros r1 r2 (s & -> & _)%list_elem_of_fmap Hr2.
        rewrite Forall_forall in Hf. apply Hf in Hr2.
        left. simpl. lia.
      * destruct (finditer_from_sorted kw t 0 0) as [Hsorted _].
        eapply StronglySorted_fmap; [|exact Hsorted].
        intros a b Hab. simpl in Hab. right. simpl. split; [done | lia].
    + apply Forall_app. split.
      * apply Forall_fmap, Forall_forall. intros s _. simpl. lia.
      * eapply Forall_impl; [exact Hf |]. simpl. intros; lia.
Qed.

End Results.

(** ** The search engine: claims *)

Section SearchClaims.

Import Text.

Lemma elem_of_search_text (self : PDFProcessor) (keyword : str)
    (r : SearchResult) :
  r ∈ search_text self keyword ↔
  ∃ (n s : nat) (page_text : str),
    page_texts self !! n = Some page_text ∧ s ∈ finditer keyword page_text ∧
    r = result_at (word_locations self) keyword (Z.of_nat n + 1) page_text s.
Proof.
  unfold search_text. rewrite elem_of_search_pages.
  split; intros (n & s & t & Hn & Hs & ->); exists n, s, t;
    (repeat split; [done | done | f_equal; lia]).
Qed.

Lemma finditer_occurs (keyword page_text : str) (s : nat) :
  s ∈ finditer keyword page_text → occurs keyword page_text s.
Proof.
  intros (j & -> & Hj & Hm)%finditer_from_sound. simpl.
  apply match_here_occurs; [lia | done].
Qed.

Lemma finditer_empty_keyword (page_text : str) (pos : nat) :
  finditer_from [] 0 pos page_text = seq pos (S (length page_text)).
Proof.
  revert pos. induction page_text as [|c rest IH]; intros pos; [done |].
  simpl. by rewrite IH.
Qed.

Lemma length_search_pages_empty_keyword (wl : locations) (page_num : Z)
    (texts : list str) :
  length (search_pages wl [] page_num texts)
  = sum_list ((λ t, S (length t)) <$> texts).
Proof.
  revert page_num. induction texts as [|t rest IH]; intros page_num; [done |].
  simpl. rewrite length_app, length_fmap, IH. unfold finditer.
  by rewrite finditer_empty_keyword, length_seq.
Qed.

(** C4, as the code has it: the window turns the empty keyword away before
    the engine is called; the engine itself, given the empty keyword, does
    not fail and returns one result for every offset of every page text
    (the end of the text included), which is no result only when there is no
    page. *)
Theorem search_text_empty_keyword (self : PDFProcessor) :
  MainWindow.search_text self [] = None ∧
  length (search_text self [])
    = sum_list ((λ t, S (length t)) <$> page_texts self) ∧
  (search_text self [] = [] ↔ page_texts self = []).
Proof.
  split; [done |]. split.
  - apply length_search_pages_empty_keyword.
  - split.
    + intros Hnil. apply (f_equal length) in Hnil.
      unfold search_text in Hnil.
      rewrite length_search_pages_empty_keyword in Hnil.
      destruct (page_texts self); [done | simpl in Hnil; lia].
    + unfold search_text. by intros ->.
Qed.

(** C4 as stated fails: on a page text of two characters the empty keyword
    gives three results. *)
Lemma search_text_empty_keyword_matches :
  position <$> search_text (index_of_texts [lit "ab"]) [] = [0; 1; 2].
Proof. reflexivity. Qed.

(** C6, as the code has it: every result is an occurrence of the keyword
    (up to case, the keyword taken literally) on its page; the results are
    in page order (numbered from 1) and on a page in increasing start
    offset, each match starting only after the previous one has ended, so no
    occurrence is reported twice; and every occurrence is either reported or
    begins inside a reported match. *)
Theorem search_text_scan_order (self : PDFProcessor) (keyword : str) :
  (∀ r, r ∈ search_text self keyword →
     ∃ (n s : nat) (page_text : str),
       page r = Z.of_nat n + 1 ∧ position r = Z.of_nat s ∧
       page_texts self !! n = Some page_text ∧ occurs keyword page_text s) ∧
  StronglySorted (scan_before keyword) (search_text self keyword) ∧
  (∀ (n i : nat) (page_text : str),
     page_texts self !! n = Some page_text → occurs keyword page_text i →
     ∃ r, r ∈ search_text self keyword ∧
          page r = Z.of_nat n + 1 ∧ position r ≤ Z.of_nat i ∧
          (Z.of_nat i = position r ∨
           Z.of_nat i < position r + Z.of_nat (length keyword))).
Proof.
  split; [|split].
  - intros r (n & s & t & Hn & Hs & ->)%elem_of_search_text.
    exists n, s, t. split; [done |]. split; [done |]. split; [done |].
    by apply finditer_occurs.
  - apply search_pages_sorted.
  - intros n i t Hn Hocc.
    assert (i ≤ length t)%nat as Hi by (destruct Hocc; lia).
    apply match_here_occurs in Hocc; [|done].
    destruct (finditer_from_complete keyword t 0 0 i) as (x & Hx & Hle & Hov);
      [lia | done |].
    exists (result_at (word_locations self) keyword (Z.of_nat n + 1) t x).
    split; [apply elem_of_search_text; by exists n, x, t |].
    simpl. split; [done |]. split; lia.
Qed.

(** C6 as stated fails: [aa] occurs in [aaa] at offsets 0 and 1, and only
    the first is reported. *)
Lemma search_text_skips_overlapping_occurrence :
  occurs (lit "aa") (lit "aaa") 1 ∧
  position <$> search_text (index_of_texts [lit "aaa"]) (lit "aa") = [0].
Proof. split; [split; [simpl; lia | reflexivity] | reflexivity]. Qed.

(** C7, as the code has it: for a match at offset [s] the context is the
    page text from [max(0, s-50)] to [min(pageLen, s+len(keyword)+50)], a
    window inside the page text that holds the whole match, in which the
    substitution has put the emphasis markers, between two ellipsis
    markers.  The markers are around the matched span, and nowhere else,
    when the keyword is not empty and occurs in the window only there. *)
Theorem search_text_context (self : PDFProcessor) (keyword : str)
    (r : SearchResult) :
  r ∈ search_text self keyword →
  ∃ (n s : nat) (page_text : str),
    page r = Z.of_nat n + 1 ∧ position r = Z.of_nat s ∧
    page_texts self !! n = Some page_text ∧
    let a := (s - 50)%nat in
    let b := (length page_text `min` (s + length keyword + 50))%nat in
    (a ≤ s ∧ s + length keyword ≤ b ∧ b ≤ length page_text)%nat ∧
    context r = lit "..." ++ re_sub keyword (slice page_text a b) ++ lit "..." ∧
    (keyword ≠ [] →
     (∀ j, occurs keyword (slice page_text a b) j → j = (s - a)%nat) →
     context r =
       lit "..." ++ slice page_text a s
       ++ emphasis (slice page_text s (s + length keyword))
       ++ slice page_text (s + length keyword) b ++ lit "...").
Proof.
  intros (n & s & t & Hn & Hs & ->)%elem_of_search_text.
  exists n, s, t. split; [done |]. split; [done |]. split; [done |].
  pose proof (finditer_occurs _ _ _ Hs) as [Hlen Hocc].
  intros a b.
  assert (a ≤ s ∧ s + length keyword ≤ b ∧ b ≤ length t)%nat as Hb
    by (subst a b; lia).
  assert (context
            (result_at (word_locations self) keyword (Z.of_nat n + 1) t s)
          = lit "..." ++ re_sub keyword (slice t a b) ++ lit "...") as Hctx.
  { simpl. by rewrite window_start, window_end. }
  split; [done |]. split; [exact Hctx |].
  intros Hne Huniq. rewrite Hctx. f_equal.
  assert (match_here keyword (drop (s - a) (slice t a b)) = true) as Hm.
  { rewrite drop_slice by lia. unfold slice.
    rewrite match_here_take by lia.
    apply match_here_occurs; [lia | by split]. }
  rewrite (re_sub_single keyword Hne (slice t a b) (s - a)).
  - rewrite take_slice, drop_slice by lia.
    replace (s - a + length keyword)%nat with (s + length keyword - a)%nat
      by lia.
    rewrite drop_slice by lia. rewrite <-!app_assoc. do 3 f_equal.
    unfold slice. rewrite take_take. f_equal. lia.
  - rewrite length_slice; lia.
  - exact Hm.
  - intros j Hj Hmj. apply Huniq. apply match_here_occurs; done.
Qed.

Lemma search_text_context_witness :
  fox_result ∈ search_text fox_index (lit "quick") ∧
  ∃ (n s : nat) (page_text : str),
    page fox_result = Z.of_nat n + 1 ∧ position fox_result = Z.of_nat s ∧
    page_texts fox_index !! n = Some page_text ∧
    let a := (s - 50)%nat in
    let b := (length page_text `min` (s + length (lit "quick") + 50))%nat in
    (a ≤ s ∧ s + length (lit "quick") ≤ b ∧ b ≤ length page_text)%nat ∧
    context fox_result
      = lit "..." ++ re_sub (lit "quick") (slice page_text a b) ++ lit "..." ∧
    (lit "quick" ≠ [] →
     (∀ j, occurs (lit "quick") (slice page_text a b) j → j = (s - a)%nat) →
     context fox_result =
       lit "..." ++ slice page_text a s
       ++ emphasis (slice page_text s (s + length (lit "quick")))
       ++ slice page_text (s + length (lit "quick")) b ++ lit "...").
Proof.
  assert (fox_result ∈ search_text fox_index (lit "quick")) as Hin.
  { vm_compute. left. }
  split; [exact Hin |].
  exact (search_text_context fox_index (lit "quick") fox_result Hin).
Defined.

(** C7 as stated fails: for the match [AAA] at offset 51 the window starts
    at offset 1, where the substitution finds [aaa] at 1, 4, ..., 46 and
    [aaA] at 49; the matched span gets no markers of its own. *)
Lemma search_text_context_misaligned :
  ∃ r, r ∈ search_text (index_of_texts [run_of_a]) (lit "aaa") ∧
       position r = 51 ∧
       slice run_of_a 51 54 = lit "AAA" ∧
       context r ≠
         lit "..." ++ slice run_of_a 1 51 ++ emphasis (lit "AAA") ++ lit "..." ∧
       context r =
         lit "..." ++ concat (replicate 16 (emphasis (lit "aaa")))
         ++ emphasis (lit "aaA") ++ lit "AA" ++ lit "...".
Proof.
  exists (result_at ∅ (lit "aaa") 1 run_of_a 51).
  split; [|split; [done | split; [done | split; [by vm_compute | done]]]].
  apply elem_of_search_text. exists 0%nat, 51%nat, run_of_a.
  split; [done |]. split; [|done].
  vm_compute. do 17 right. left.
Qed.

(** The box of a result is the entry of the page's word locations under
    [len(page_text[:s].split())], the number of tokens that precede the match
    start and one more when the match starts inside a token, and the zero
    rectangle when the page or that number is not a key. *)
Lemma search_text_bbox_lookup (self : PDFProcessor) (keyword : str)
    (r : SearchResult) :
  r ∈ search_text self keyword →
  ∃ (n s : nat) (page_text : str),
    page r = Z.of_nat n + 1 ∧ position r = Z.of_nat s ∧
    page_texts self !! n = Some page_text ∧
    bbox r =
      match word_locations self !! KInt (page r - 1) with
      | None => sentinel
      | Some page_locations =>
          match page_locations
                  !! KInt (Z.of_nat (tokens_preceding page_text s
                                     + if inside_token page_text s
                                       then 1 else 0)) with
          | None => sentinel
          | Some b => b
          end
      end.
Proof.
  intros (n & s & t & Hn & Hs & ->)%elem_of_search_text.
  exists n, s, t. split; [done |]. split; [done |]. split; [done |].
  simpl. rewrite word_index_tokens_preceding.
  destruct (word_locations self !! KInt (Z.of_nat n + 1 - 1)) as [m|]; simpl;
    [|by rewrite lookup_empty].
  by destruct (m !! KInt _).
Qed.

(** C8 fails on the code: on the page [foobar baz], indexed by
    [process_pages] with the boxes of both words, no token strictly precedes
    the match of [bar] at offset 3, yet [len(page_text[:3].split())] is 1
    and the result carries the box of [baz], not that of [foobar]; one token
    strictly precedes the match of [az] at offset 8, yet the code looks up
    ordinal 2 and the result carries the zero rectangle although the box of
    [baz] is recorded under ordinal 1. *)
Theorem search_text_bbox_wrong_word :
  page_texts foobar_index = [lit "foobar baz"] ∧
  word_locations foobar_index !! KInt 0
    = Some {[KInt 0 := Tuple 1 2 5 4; KInt 1 := Tuple 6 2 10 4]} ∧
  tokens_preceding (lit "foobar baz") 3 = 0%nat ∧
  length (split (take 3 (lit "foobar baz"))) = 1%nat ∧
  search_text foobar_index (lit "bar")
    = [{| page := 1;
          context := lit "...foo**bar** baz...";
          position := 3;
          bbox := Tuple 6 2 10 4 |}] ∧
  tokens_preceding (lit "foobar baz") 8 = 1%nat ∧
  length (split (take 8 (lit "foobar baz"))) = 2%nat ∧
  search_text foobar_index (lit "az")
    = [{| page := 1;
          context := lit "...foobar b**az**...";
          position := 8;
          bbox := sentinel |}].
Proof. vm_compute. repeat split; reflexivity. Qed.

End SearchClaims.

(** ** The page processor: claims *)

Section ProcessClaims.

Variable hash : string → Z.

(** A page whose [try] body raises leaves no entry in [page_texts]. *)
Lemma pages_loop_texts (total_pages page_num : Z) (todo : list ocr_outcome)
    (self : PDFProcessor) :
  page_texts (pages_loop total_pages page_num todo self).1
  = page_texts self ++ omap page_text_of todo.
Proof.
  revert page_num self.
  induction todo as [|o rest IH]; intros page_num self; simpl.
  - by rewrite app_nil_r.
  - unfold page_text_of at 1. destruct (ocr_page o) as [e|[t locs]].
    + specialize (IH (page_num + 1) self).
      destruct (pages_loop total_pages (page_num + 1) rest self). done.
    + match goal with
      | |- context [pages_loop _ _ _ ?st] =>
          specialize (IH (page_num + 1) st);
          destruct (pages_loop total_pages (page_num + 1) rest st)
      end.
      simpl in *. by rewrite IH, <-app_assoc.
Qed.

(** After [process_pages], [page_texts] holds the texts of the pages that
    succeeded, in page order, and nothing for the others. *)
Lemma process_pages_texts (w : world) (self : PDFProcessor) (doc : pdf) :
  current_pdf self = Some doc →
  pages doc ≠ [] →
  page_texts (process_pages hash w self).1.1 = omap page_text_of (pages doc).
Proof.
  intros Hdoc Hpages. unfold process_pages. rewrite Hdoc.
  destruct (pages doc) as [|o rest] eqn:Hp; [done |].
  pose proof (pages_loop_texts (Z.of_nat (length (o :: rest))) 0 (o :: rest)
                {| current_pdf := Some doc; page_texts := [];
                   word_locations := ∅ |}) as Htexts.
  destruct (pages_loop _ 0 (o :: rest) _) as [st out]. simpl in Htexts.
  by destruct (get_cache_path hash w (name doc)).
Qed.

Lemma pages_loop_signals (total_pages : Z) (p : nat) (todo : list ocr_outcome)
    (self : PDFProcessor) :
  (pages_loop total_pages (Z.of_nat p) todo self).2
  = imap (λ i, page_signal total_pages (p + i)) todo.
Proof.
  revert p self. induction todo as [|o rest IH]; intros p self; [done |].
  rewrite imap_cons. simpl pages_loop.
  replace (Z.of_nat p + 1) with (Z.of_nat (S p)) by lia.
  rewrite (imap_ext _ (λ i, page_signal total_pages (S p + i)));
    [|intros i x _; simpl; f_equal; lia].
  unfold page_signal at 1. rewrite Nat.add_0_r.
  replace (Z.of_nat p + 1) with (Z.of_nat (S p)) by lia.
  destruct (ocr_page o) as [e|[t locs]].
  - specialize (IH (S p) self).
    destruct (pages_loop total_pages (Z.of_nat (S p)) rest self).
    simpl in *. by rewrite IH.
  - match goal with
    | |- context [pages_loop _ _ _ ?st] =>
        specialize (IH (S p) st);
        destruct (pages_loop total_pages (Z.of_nat (S p)) rest st)
    end.
    simpl in *. by rewrite IH.
Qed.

(** C9, as the code has it: the turn of the loop for every page ends with
    one signal, in page order: a progress notification [(page_num + 1,
    total_pages)] when the page succeeded, a status notification that names
    the page when it failed; after the last page comes at most the status
    of a failed cache write. *)
Theorem process_pages_signals (w : world) (self : PDFProcessor) (doc : pdf) :
  current_pdf self = Some doc →
  pages doc ≠ [] →
  ∃ tail,
    (process_pages hash w self).2
    = imap (page_signal (Z.of_nat (length (pages doc)))) (pages doc) ++ tail ∧
    (tail = [] ∨ ∃ e, tail = [status_updated ("Error saving cache: " +:+ e)]).
Proof.
  intros Hdoc Hpages. unfold process_pages. rewrite Hdoc.
  destruct (pages doc) as [|o rest] eqn:Hp; [done |].
  pose proof (pages_loop_signals (Z.of_nat (length (o :: rest))) 0 (o :: rest)
                {| current_pdf := Some doc; page_texts := [];
                   word_locations := ∅ |}) as Hsig.
  change (Z.of_nat 0) with 0 in Hsig.
  destruct (pages_loop _ 0 (o :: rest) _) as [st out]. simpl in Hsig.
  destruct (get_cache_path hash w (name doc)) as [e|cache_path]; simpl.
  - exists [status_updated ("Error saving cache: " +:+ e)].
    split; [by rewrite Hsig | right; by exists e].
  - exists []. split; [by rewrite Hsig, app_nil_r | by left].
Qed.

End ProcessClaims.

Lemma process_pages_signals_witness :
  current_pdf (load_pdf length_hash sample_world new_processor "a.pdf").1.2
    = Some {| name := "a.pdf"; pages := two_pages |} ∧
  two_pages ≠ [] ∧
  ∃ tail,
    (process_pages length_hash sample_world
       (load_pdf length_hash sample_world new_processor "a.pdf").1.2).2
    = imap (page_signal (Z.of_nat (length two_pages))) two_pages ++ tail ∧
    (tail = [] ∨ ∃ e, tail = [status_updated ("Error saving cache: " +:+ e)]).
Proof.
  assert (current_pdf
            (load_pdf length_hash sample_world new_processor "a.pdf").1.2
          = Some {| name := "a.pdf"; pages := two_pages |}) as Hdoc
    by (vm_compute; reflexivity).
  assert (two_pages ≠ []) as Hne by discriminate.
  split; [exact Hdoc |]. split; [exact Hne |].
  exact (process_pages_signals length_hash sample_world _ _ Hdoc Hne).
Defined.

(** C9 as stated fails: the first page of [two_pages] fails, and no progress
    notification is emitted for it. *)
Lemma process_pages_no_progress_for_failed_page :
  (MainWindow.process_pdf length_hash sample_world new_processor "a.pdf").2
  = [status_updated "Error processing page 1: 'NoneType' object is not iterable";
     progress_updated 2 2] ∧
  progress_updated 1 2
  ∉ (MainWindow.process_pdf length_hash sample_world new_processor "a.pdf").2.
Proof.
  assert ((MainWindow.process_pdf length_hash sample_world new_processor
             "a.pdf").2
          = [status_updated "Error processing page 1: 'NoneType' object is not iterable";
             progress_updated 2 2]) as -> by (vm_compute; reflexivity).
  split; [done |].
  intros [?|[?|?%elem_of_nil]%elem_of_cons]%elem_of_cons; done.
Qed.

(** C1 fails on the code: of the two pages of [two_pages] the first raises
    in the loop over the OCR result; [page_texts] then has one entry, not
    two, no empty string stands for the failed page, and the text of page 2
    is found as page 1, without the box that was stored for it under page
    index 1. *)
Theorem process_pages_drops_failed_page :
  let self :=
    (MainWindow.process_pdf length_hash sample_world new_processor
       "a.pdf").1.1 in
  length two_pages = 2%nat ∧
  page_texts self = [lit "hello world"] ∧
  word_locations self !! KInt 0 = None ∧
  word_locations self !! KInt 1
    = Some {[KInt 0 := Tuple 1 2 5 4; KInt 1 := Tuple 6 2 10 4]} ∧
  search_text self (lit "world")
    = [{| page := 1;
          context := lit "...hello **world**...";
          position := 6;
          bbox := sentinel |}].
Proof. vm_compute. repeat split; reflexivity. Qed.

(** ** The cache: claims *)

Lemma length_append (a b : string) :
  String.length (a +:+ b) = (String.length a + String.length b)%nat.
Proof. induction a as [|c a IH]; simpl; [done | by rewrite IH]. Qed.

Lemma append_inj_r (s a b : string) : a +:+ s = b +:+ s → a = b.
Proof.
  revert b. induction a as [|c a IH]; intros [|d b] Heq; simpl in Heq.
  - done.
  - apply (f_equal String.length) in Heq.
    rewrite ?length_append in Heq. simpl in Heq.
    rewrite ?length_append in Heq. lia.
  - apply (f_equal String.length) in Heq.
    rewrite ?length_append in Heq. simpl in Heq.
    rewrite ?length_append in Heq. lia.
  - injection Heq as -> Heq. f_equal. by apply IH.
Qed.

(** What [json.load] returns has no [int] key. *)
Lemma load_locations_int_key (j : json_locations) (n : Z) :
  load_locations j !! KInt n = None.
Proof.
  unfold load_locations. apply lookup_kmap_None; [apply _ |].
  intros i Hi. discriminate.
Qed.

Lemma load_locations_keys (j : json_locations) (k : pykey) :
  k ∈ dom (load_locations j) → ∃ s : string, k = KStr s.
Proof.
  unfold load_locations. rewrite elem_of_dom, lookup_kmap_is_Some by apply _.
  intros (i & -> & _). by exists i.
Qed.

Section CacheClaims.

Variable hash : string → Z.

(** The cache file written by [process_pages] is the one that a later
    [load_pdf] of the same file reads, in the same interpreter and with the
    modification time unchanged: the texts come back as they were, the
    locations as [json.load] builds them. *)
Lemma process_pages_then_load_pdf (w w' : world) (self st other : PDFProcessor)
    (doc : pdf) (mtime : string) (out : list signal) :
  current_pdf self = Some doc →
  pages doc ≠ [] →
  documents w !! name doc = Some (pages doc) →
  mtimes w !! name doc = Some mtime →
  process_pages hash w self = (st, w', out) →
  load_pdf hash w' other (name doc)
  = (true,
     {| current_pdf := Some {| name := name doc; pages := pages doc |};
        page_texts := page_texts st;
        word_locations := load_locations (dump_locations (word_locations st)) |},
     [status_updated "Loaded OCR results from cache"]).
Proof.
  intros Hdoc Hpages Hdocs Hmtime. unfold process_pages. rewrite Hdoc.
  destruct (pages doc) as [|o rest] eqn:Hp; [done |].
  destruct (pages_loop _ 0 (o :: rest) _) as [st1 out1].
  unfold get_cache_path. rewrite Hmtime. intros [= <- <- <-].
  unfold load_pdf, get_cache_path. simpl. rewrite Hdocs, Hmtime.
  by rewrite lookup_insert_eq.
Qed.

(** C3, as the code has it: when the cache file of the document does not
    decode, [load_pdf] raises nothing: the exception is caught, the status
    notification of a failed load is emitted and [False] is returned, with
    the page texts and the word locations as they were; the window then
    does not start the processing. *)
Theorem load_pdf_undecodable_cache (w : world) (self : PDFProcessor)
    (pdf_path cache_path msg : string) (pgs : list ocr_outcome) :
  pdf_path ≠ ""%string →
  documents w !! pdf_path = Some pgs →
  get_cache_path hash w pdf_path = inr cache_path →
  files w !! cache_path = Some (Undecodable msg) →
  let self' := {| current_pdf := Some {| name := pdf_path; pages := pgs |};
                  page_texts := page_texts self;
                  word_locations := word_locations self |} in
  let out := [status_updated ("Error loading PDF: " +:+ msg)] in
  load_pdf hash w self pdf_path = (false, self', out) ∧
  MainWindow.process_pdf hash w self pdf_path = (self', w, out).
Proof.
  intros Hne Hdoc Hpath Hfile self' out.
  assert (load_pdf hash w self pdf_path = (false, self', out)) as Hload.
  { unfold load_pdf. by rewrite Hdoc, Hpath, Hfile. }
  split; [done |]. unfold MainWindow.process_pdf.
  destruct pdf_path; [done |]. by rewrite Hload.
Qed.

(** C10: in an index restored from the cache every key of the word
    locations is a JSON string; the page look-up of [search_text], under the
    integer [page_num - 1], finds nothing, and every result of every search
    carries the zero rectangle. *)
Theorem restored_index_bbox (w : world) (self st : PDFProcessor)
    (pdf_path : string) (keyword : str) (r : SearchResult) :
  load_pdf hash w self pdf_path
    = (true, st, [status_updated "Loaded OCR results from cache"]) →
  r ∈ search_text st keyword →
  (∀ k, k ∈ dom (word_locations st) → ∃ s : string, k = KStr s) ∧
  word_locations st !! KInt (page r - 1) = None ∧
  bbox r = sentinel.
Proof.
  intros Hload Hr.
  assert (∃ locs, word_locations st = load_locations locs) as [locs Hwl].
  { unfold load_pdf in Hload.
    destruct (documents w !! pdf_path); [|done].
    destruct (get_cache_path hash w pdf_path); [done |].
    destruct (files w !! _) as [[?|[texts|] [locs|]]|]; try done.
    injection Hload as <-. by exists locs. }
  split; [|split].
  - intros k. rewrite Hwl. apply load_locations_keys.
  - rewrite Hwl. apply load_locations_int_key.
  - apply elem_of_search_text in Hr as (n & s & t & _ & _ & ->). simpl.
    by rewrite Hwl, load_locations_int_key.
Qed.

End CacheClaims.

(** C3 as stated fails: with a cache file that does not decode the load
    fails and the window does not process the document. *)
Lemma corrupt_cache_fails_load :
  (load_pdf length_hash corrupt_world new_processor "a.pdf").1.1 = false ∧
  MainWindow.process_pdf length_hash corrupt_world new_processor "a.pdf"
  = ({| current_pdf := Some {| name := "a.pdf"; pages := two_pages |};
        page_texts := [];
        word_locations := ∅ |},
     corrupt_world,
     [status_updated
        "Error loading PDF: Expecting value: line 1 column 1 (char 0)"]).
Proof. vm_compute. split; reflexivity. Qed.

Lemma load_pdf_undecodable_cache_witness :
  "a.pdf"%string ≠ ""%string ∧
  load_pdf length_hash corrupt_world new_processor "a.pdf"
  = (false,
     {| current_pdf := Some {| name := "a.pdf"; pages := two_pages |};
        page_texts := page_texts new_processor;
        word_locations := word_locations new_processor |},
     [status_updated
        ("Error loading PDF: " +:+ "Expecting value: line 1 column 1 (char 0)")]) ∧
  MainWindow.process_pdf length_hash corrupt_world new_processor "a.pdf"
  = ({| current_pdf := Some {| name := "a.pdf"; pages := two_pages |};
        page_texts := page_texts new_processor;
        word_locations := word_locations new_processor |},
     corrupt_world,
     [status_updated
        ("Error loading PDF: " +:+ "Expecting value: line 1 column 1 (char 0)")]).
Proof.
  split; [discriminate |].
  apply (load_pdf_undecodable_cache length_hash corrupt_world new_processor
           "a.pdf" "ocr_cache/17.json"
           "Expecting value: line 1 column 1 (char 0)" two_pages).
  - discriminate.
  - vm_compute. reflexivity.
  - vm_compute. reflexivity.
  - vm_compute. reflexivity.
Defined.

Lemma restored_index_bbox_witness :
  load_pdf length_hash cached_world new_processor "b.pdf"
    = (true, restored_b, [status_updated "Loaded OCR results from cache"]) ∧
  hello_result sentinel ∈ search_text restored_b (lit "hello") ∧
  (∀ k, k ∈ dom (word_locations restored_b) → ∃ s : string, k = KStr s) ∧
  word_locations restored_b !! KInt (page (hello_result sentinel) - 1) = None ∧
  bbox (hello_result sentinel) = sentinel.
Proof.
  assert (load_pdf length_hash cached_world new_processor "b.pdf"
          = (true, restored_b, [status_updated "Loaded OCR results from cache"]))
    as Hload by (vm_compute; reflexivity).
  assert (hello_result sentinel ∈ search_text restored_b (lit "hello")) as Hin.
  { vm_compute. left. }
  split; [exact Hload |]. split; [exact Hin |].
  exact (restored_index_bbox length_hash cached_world new_processor restored_b
           "b.pdf" (lit "hello") (hello_result sentinel) Hload Hin).
Defined.

(** Before the round trip through the cache the same search finds the box
    of the word. *)
Example indexed_search_finds_box :
  search_text indexed_b (lit "hello") = [hello_result (Tuple 1 2 5 4)].
Proof. vm_compute. reflexivity. Qed.

(** C2 fails on the code: the index of [b.pdf] written to the cache and read
    back has its texts unchanged, and locations under other keys (strings
    for integers) with other values (lists for tuples). *)
Theorem cache_round_trip_changes_locations :
  (load_pdf length_hash cached_world new_processor "b.pdf").1.1 = true ∧
  page_texts restored_b = page_texts indexed_b ∧
  word_locations indexed_b = {[KInt 0 := {[KInt 0 := Tuple 1 2 5 4]}]} ∧
  word_locations restored_b
    = {[KStr "0" := {[KStr "0" := JList [1; 2; 5; 4]%Q]}]} ∧
  word_locations restored_b ≠ word_locations indexed_b.
Proof.
  assert (word_locations indexed_b !! KInt 0 ≠ None) as Hint
    by (vm_compute; discriminate).
  repeat split; try (vm_compute; reflexivity).
  intros Heq. apply Hint. rewrite <-Heq. by vm_compute.
Qed.

(** C5 fails on the code: the name of the cache file is the decimal text of
    the built-in [hash] of the interpreter, so two interpreters whose
    [hash] differs on the text of path and modification time name two
    different cache files for the same document. *)
Theorem get_cache_path_follows_hash (hash1 hash2 : string → Z) (w : world)
    (pdf_path mtime : string) :
  mtimes w !! pdf_path = Some mtime →
  hash1 (pdf_path +:+ mtime) ≠ hash2 (pdf_path +:+ mtime) →
  get_cache_path hash1 w pdf_path ≠ get_cache_path hash2 w pdf_path.
Proof.
  intros Hm Hne. unfold get_cache_path. rewrite Hm. intros Heq.
  injection Heq as Heq.
  change (pretty (hash1 (pdf_path +:+ mtime)) +:+ ".json"
          = pretty (hash2 (pdf_path +:+ mtime)) +:+ ".json") in Heq.
  apply append_inj_r in Heq. by apply (inj pretty) in Heq.
Qed.

Lemma get_cache_path_follows_hash_witness :
  mtimes sample_world !! "b.pdf"%string = Some "1700000001.5"%string ∧
  length_hash ("b.pdf" +:+ "1700000001.5") ≠ other_hash ("b.pdf" +:+ "1700000001.5") ∧
  get_cache_path length_hash sample_world "b.pdf"
  ≠ get_cache_path other_hash sample_world "b.pdf".
Proof.
  assert (mtimes sample_world !! "b.pdf"%string = Some "1700000001.5"%string)
    as Hm by (vm_compute; reflexivity).
  assert (length_hash ("b.pdf" +:+ "1700000001.5")
          ≠ other_hash ("b.pdf" +:+ "1700000001.5")) as Hne
    by (vm_compute; discriminate).
  split; [exact Hm |]. split; [exact Hne |].
  exact (get_cache_path_follows_hash length_hash other_hash sample_world
           "b.pdf" "1700000001.5" Hm Hne).
Defined.

(** The cache written under one [hash] is not found under the other: the
    load is a miss and the index is empty. *)
Example load_pdf_after_restart :
  load_pdf other_hash cached_world new_processor "b.pdf"
  = (true,
     {| current_pdf := Some {| name := "b.pdf"; pages := one_page |};
        page_texts := [];
        word_locations := ∅ |},
     []).
Proof. vm_compute. reflexivity. Qed.

(** ** More on the search engine *)

Section KeywordCase.

Import Text.

Lemma match_here_lower (kw1 kw2 t : str) :
  lower <$> kw1 = lower <$> kw2 → match_here kw1 t = match_here kw2 t.
Proof.
  revert kw2 t. induction kw1 as [|k kw1 IH]; intros [|k2 kw2] t Heq;
    try done.
  injection Heq as Hk Heq. destruct t as [|c t]; [done |]. simpl.
  unfold eq_nocase. rewrite Hk. f_equal. by apply IH.
Qed.

Lemma finditer_from_lower (kw1 kw2 t : str) (skip pos : nat) :
  lower <$> kw1 = lower <$> kw2 →
  finditer_from kw1 skip pos t = finditer_from kw2 skip pos t.
Proof.
  intros Heq. assert (length kw1 = length kw2) as Hlen.
  { apply (f_equal length) in Heq. by rewrite !length_fmap in Heq. }
  revert skip pos. induction t as [|c t IH]; intros skip pos; simpl.
  - by rewrite (match_here_lower _ _ _ Heq).
  - destruct skip; [|done].
    rewrite (match_here_lower _ _ _ Heq), Hlen, !IH. done.
Qed.

Lemma re_sub_from_lower (kw1 kw2 t : str) (skip : nat) :
  lower <$> kw1 = lower <$> kw2 →
  re_sub_from kw1 skip t = re_sub_from kw2 skip t.
Proof.
  intros Heq. assert (length kw1 = length kw2) as Hlen.
  { apply (f_equal length) in Heq. by rewrite !length_fmap in Heq. }
  revert skip. induction t as [|c t IH]; intros skip; simpl.
  - by rewrite (match_here_lower _ _ _ Heq).
  - destruct skip; [|done].
    rewrite (match_here_lower _ _ _ Heq), Hlen.
    destruct (match_here kw2 (c :: t)); [|by rewrite IH].
    destruct (length kw2); by rewrite IH.
Qed.

(** X1: the case of the keyword does not matter: two keywords that are
    equal up to case give the same results, contexts included. *)
Theorem search_text_keyword_case (self : PDFProcessor) (kw1 kw2 : str) :
  lower <$> kw1 = lower <$> kw2 →
  search_text self kw1 = search_text self kw2.
Proof.
  intros Heq. assert (length kw1 = length kw2) as Hlen.
  { apply (f_equal length) in Heq. by rewrite !length_fmap in Heq. }
  unfold search_text. generalize 1. generalize (word_locations self) as wl.
  induction (page_texts self) as [|t rest IH]; intros wl page_num; [done |].
  simpl. rewrite IH. f_equal. unfold finditer.
  rewrite (finditer_from_lower _ _ _ _ _ Heq).
  apply list_fmap_ext. intros _ s _. unfold result_at, re_sub.
  by rewrite Hlen, (re_sub_from_lower _ _ _ _ Heq).
Qed.

(** X2: a keyword that is not empty is not found on a page whose text is
    shorter than the keyword; in particular a page with the empty text
    (nothing recognised on it) gives no result. *)
Theorem search_text_short_pages (self : PDFProcessor) (keyword : str) :
  Forall (λ t, (length t < length keyword)%nat) (page_texts self) →
  search_text self keyword = [].
Proof.
  intros Hshort. destruct (search_text self keyword) as [|r rs] eqn:E; [done |].
  assert (r ∈ search_text self keyword) as Hr by (rewrite E; left).
  apply elem_of_search_text in Hr as (n & s & t & Hn & Hs & _).
  apply finditer_occurs in Hs as [Hlen _].
  rewrite Forall_forall in Hshort.
  specialize (Hshort t (list_elem_of_lookup_2 _ _ _ Hn)). simpl in Hshort. lia.
Qed.

End KeywordCase.

Lemma search_text_keyword_case_witness :
  Text.lower <$> lit "QuIcK" = Text.lower <$> lit "quick" ∧
  search_text fox_index (lit "QuIcK") = search_text fox_index (lit "quick").
Proof.
  assert (Text.lower <$> lit "QuIcK" = Text.lower <$> lit "quick") as Heq
    by reflexivity.
  split; [exact Heq |].
  exact (search_text_keyword_case fox_index (lit "QuIcK") (lit "quick") Heq).
Defined.

Lemma search_text_short_pages_witness :
  Forall (λ t, (length t < length (lit "quick"))%nat)
    (page_texts (index_of_texts [[]; lit "fox"])) ∧
  search_text (index_of_texts [[]; lit "fox"]) (lit "quick") = [].
Proof.
  assert (Forall (λ t, (length t < length (lit "quick"))%nat)
            (page_texts (index_of_texts [[]; lit "fox"]))) as Hshort.
  { repeat constructor; simpl; lia. }
  split; [exact Hshort |].
  exact (search_text_short_pages (index_of_texts [[]; lit "fox"])
           (lit "quick") Hshort).
Defined.

(** ** Tokens: joining in [process_pages], splitting in [search_text] *)

Section JoinSplit.

Import Text.

Local Open Scope nat_scope.

Lemma split_from_nonspace (cur t rest : str) :
  Forall (λ c, is_space c = false) t →
  split_from cur (t ++ rest) = split_from (reverse t ++ cur) rest.
Proof.
  revert cur. induction t as [|c t IH]; intros cur Ht; [done |].
  apply Forall_cons in Ht as [Hc Ht]. simpl. rewrite Hc, IH by done.
  by rewrite reverse_cons, <-app_assoc.
Qed.

Lemma split_from_token (t rest : str) :
  clean_token t →
  split_from [] (t ++ lit " " ++ rest) = t :: split_from [] rest.
Proof.
  intros [Hne Ht]. rewrite split_from_nonspace by done. rewrite app_nil_r.
  simpl. destruct (reverse t) as [|c u] eqn:Hrev.
  - apply (f_equal reverse) in Hrev. rewrite reverse_involutive in Hrev. done.
  - by rewrite <-Hrev, reverse_involutive.
Qed.

Lemma split_from_last_token (t : str) :
  clean_token t → split_from [] t = [t].
Proof.
  intros [Hne Ht]. rewrite <-(app_nil_r t) at 1.
  rewrite split_from_nonspace by done. rewrite app_nil_r. simpl.
  destruct (reverse t) as [|c u] eqn:Hrev.
  - apply (f_equal reverse) in Hrev. rewrite reverse_involutive in Hrev. done.
  - by rewrite <-Hrev, reverse_involutive.
Qed.

Lemma split_from_join_space (tokens : list str) (rest : str) :
  Forall clean_token tokens →
  split_from [] (join (lit " ") tokens ++ lit " " ++ rest)
  = tokens ++ split_from [] rest.
Proof.
  induction tokens as [|p [|q ps] IH]; intros Hclean.
  - done.
  - apply Forall_cons in Hclean as [Hp _]. by apply split_from_token.
  - apply Forall_cons in Hclean as [Hp Hrest].
    change (join (lit " ") (p :: q :: ps))
      with (p ++ lit " " ++ join (lit " ") (q :: ps)).
    rewrite <-!app_assoc. rewrite split_from_token by done.
    rewrite IH by done. done.
Qed.

(** X3: the page text that [process_pages] builds by joining the OCR tokens
    with single spaces splits back, in [search_text], into the same tokens,
    provided no token is empty or holds white space. *)
Theorem split_join (tokens : list str) :
  Forall clean_token tokens → split (join (lit " ") tokens) = tokens.
Proof.
  unfold split. induction tokens as [|p [|q ps] IH]; intros Hclean.
  - done.
  - apply Forall_cons in Hclean as [Hp _]. by apply split_from_last_token.
  - apply Forall_cons in Hclean as [Hp Hrest].
    change (join (lit " ") (p :: q :: ps))
      with (p ++ lit " " ++ join (lit " ") (q :: ps)).
    rewrite split_from_token by done. f_equal. by apply IH.
Qed.

Lemma join_app (sep : str) (l1 l2 : list str) :
  l1 ≠ [] → l2 ≠ [] →
  join sep (l1 ++ l2) = join sep l1 ++ sep ++ join sep l2.
Proof.
  intros H1 H2. induction l1 as [|p [|q l1] IH]; [done | |].
  - destruct l2; [done |]. done.
  - change (join sep ((p :: q :: l1) ++ l2))
      with (p ++ sep ++ join sep ((q :: l1) ++ l2)).
    rewrite IH by done.
    change (join sep (p :: q :: l1)) with (p ++ sep ++ join sep (q :: l1)).
    by rewrite <-!app_assoc.
Qed.

(** The text before the start of the token of index [k] splits into [k]
    tokens. *)
Lemma word_index_token_offset (tokens : list str) (k : nat) :
  Forall clean_token tokens → k < length tokens →
  length (split (take (token_offset tokens k) (join (lit " ") tokens))) = k.
Proof.
  intros Hclean Hk.
  unfold token_offset, split. destruct k as [|k]; [done |].
  rewrite <-(take_drop (S k) tokens) at 2.
  rewrite join_app.
  - rewrite app_assoc. rewrite take_app_length'.
    + pose proof (split_from_join_space (take (S k) tokens) []
                    (Forall_take _ _ _ Hclean)) as Hsplit.
      change (lit " " ++ []) with (lit " ") in Hsplit. rewrite Hsplit.
      simpl. rewrite app_nil_r, length_take. lia.
    + rewrite length_app. simpl. lia.
  - destruct tokens; [simpl in Hk; lia | done].
  - intros Hnil. apply (f_equal length) in Hnil.
    rewrite length_drop in Hnil. simpl in Hnil. lia.
Qed.

End JoinSplit.

Lemma split_join_witness :
  Forall clean_token [lit "hello"; lit "world"] ∧
  Text.split (Text.join (lit " ") [lit "hello"; lit "world"])
  = [lit "hello"; lit "world"].
Proof.
  assert (Forall clean_token [lit "hello"; lit "world"]) as Hclean.
  { repeat constructor; done. }
  split; [exact Hclean |]. exact (split_join _ Hclean).
Defined.

(** ** What [process_pages] stores for a page *)

Section PageIndex.

Lemma word_box_nil : word_box [] = inl "min() arg is an empty sequence"%string.
Proof. done. Qed.

Lemma word_box_cons (pt : Q * Q) (q : list (Q * Q)) :
  ∃ b, word_box (pt :: q) = inr b.
Proof. unfold word_box. simpl. eauto. Qed.

Lemma line_loop_spec (line : list word_info) (page_text page_text' : list str)
    (page_locations page_locations' : page_locs) :
  line_loop line page_text page_locations = inr (page_text', page_locations') →
  page_text' = page_text ++ (text <$> line) ∧
  (∀ (k : nat) w, line !! k = Some w →
     ∃ b, word_box (quad w) = inr b ∧
          page_locations' !! KInt (Z.of_nat (length page_text + k)) = Some b) ∧
  (∀ key, (∀ k : nat, (k < length line)%nat →
                      key ≠ KInt (Z.of_nat (length page_text + k))) →
          page_locations' !! key = page_locations !! key).
Proof.
  revert page_text page_locations.
  induction line as [|w rest IH]; intros pt pl; simpl.
  - intros [= <- <-]. split; [by rewrite app_nil_r |]. split; [done |]. done.
  - destruct (word_box (quad w)) as [e|b] eqn:Hbox; [done |].
    intros Hloop. apply IH in Hloop as (Htext & Hboxes & Hframe).
    rewrite length_app in Hboxes, Hframe. simpl in Hboxes, Hframe.
    replace (Z.of_nat (length pt + 1) - 1) with (Z.of_nat (length pt)) in Hframe
      by lia.
    split; [by rewrite Htext, <-app_assoc |]. split.
    + intros [|k] w' Hk; simpl in Hk.
      * injection Hk as <-. exists b. split; [done |].
        rewrite Nat.add_0_r, Hframe.
        -- apply lookup_insert_eq.
        -- intros k _ [= Heq]. lia.
      * destruct (Hboxes k w' Hk) as (b' & Hb' & Hl). exists b'.
        split; [done |]. rewrite <-Hl. do 2 f_equal. lia.
    + intros key Hkey. rewrite Hframe.
      * apply lookup_insert_ne. specialize (Hkey 0%nat).
        rewrite Nat.add_0_r in Hkey. intros <-. apply Hkey; [lia | done].
      * intros k Hk. specialize (Hkey (S k)).
        replace (length pt + 1 + k)%nat with (length pt + S k)%nat by lia.
        apply Hkey. lia.
Qed.

Lemma result_loop_spec (result : list (option (list word_info)))
    (page_text page_text' : list str)
    (page_locations page_locations' : page_locs) :
  result_loop result page_text page_locations
    = inr (page_text', page_locations') →
  page_text' = page_text ++ (text <$> entries result) ∧
  (∀ (k : nat) w, entries result !! k = Some w →
     ∃ b, word_box (quad w) = inr b ∧
          page_locations' !! KInt (Z.of_nat (length page_text + k)) = Some b) ∧
  (∀ key, (∀ k : nat, (k < length (entries result))%nat →
                      key ≠ KInt (Z.of_nat (length page_text + k))) →
          page_locations' !! key = page_locations !! key).
Proof.
  revert page_text page_locations.
  induction result as [|[line|] rest IH]; intros pt pl; simpl; [| |done].
  - intros [= <- <-]. split; [by rewrite app_nil_r |]. split; [done |]. done.
  - destruct (line_loop line pt pl) as [e|[pt1 pl1]] eqn:Hline; [done |].
    apply line_loop_spec in Hline as (Htext1 & Hboxes1 & Hframe1).
    intros Hloop. apply IH in Hloop as (Htext & Hboxes & Hframe).
    change (entries (Some line :: rest)) with (line ++ entries rest).
    assert (length pt1 = length pt + length line)%nat as Hlen
      by (rewrite Htext1, length_app, length_fmap; lia).
    split; [by rewrite Htext, Htext1, fmap_app, <-app_assoc |]. split.
    + intros k w Hk. apply lookup_app_Some in Hk as [Hk|[Hge Hk]].
      * destruct (Hboxes1 k w Hk) as (b & Hb & Hl). exists b.
        split; [done |]. rewrite Hframe; [done |].
        intros k' _ [= Heq]. apply lookup_lt_Some in Hk. lia.
      * destruct (Hboxes _ w Hk) as (b & Hb & Hl). exists b.
        split; [done |]. rewrite <-Hl. do 2 f_equal. lia.
    + intros key Hkey. rewrite length_app in Hkey. rewrite Hframe.
      * apply Hframe1. intros k Hk. apply Hkey. lia.
      * intros k Hk.
        replace (length pt1 + k)%nat with (length pt + (length line + k))%nat
          by lia.
        apply Hkey. lia.
Qed.

Lemma ocr_page_spec (o : ocr_outcome) (page_text : str)
    (page_locations : page_locs) :
  ocr_page o = inr (page_text, page_locations) →
  ∃ result,
    o = Returns result ∧
    page_text = Text.join (lit " ") (text <$> entries result) ∧
    (∀ (k : nat) w, entries result !! k = Some w →
       ∃ b, word_box (quad w) = inr b ∧
            page_locations !! KInt (Z.of_nat k) = Some b) ∧
    (∀ key, is_Some (page_locations !! key) →
       ∃ k : nat, (k < length (entries result))%nat ∧ key = KInt (Z.of_nat k)).
Proof.
  destruct o as [msg|result]; [done |]. simpl.
  destruct (result_loop result [] ∅) as [e|[pt pl]] eqn:Hloop; [done |].
  intros [= <- <-]. exists result.
  apply result_loop_spec in Hloop as (Htext & Hboxes & Hframe).
  simpl in Htext, Hboxes, Hframe. subst pt.
  split; [done |]. split; [done |]. split; [exact Hboxes |].
  intros key [b Hb]. destruct key as [n|str].
  - destruct (decide (0 ≤ n < Z.of_nat (length (entries result)))) as [Hn|Hn].
    + exists (Z.to_nat n). split; [lia | f_equal; lia].
    + rewrite Hframe, lookup_empty in Hb; [done |].
      intros k Hk [= ->]. lia.
  - rewrite Hframe, lookup_empty in Hb; done.
Qed.

(** X4: when the [try] body gets through a page, the page text is the texts
    of the OCR entries joined with single spaces, every entry has its
    rectangle stored under its ordinal among the entries of the page (from
    0), and nothing is stored under any other key. *)
Theorem ocr_page_index (o : ocr_outcome) (page_text : str)
    (page_locations : page_locs) :
  ocr_page o = inr (page_text, page_locations) →
  ∃ result,
    o = Returns result ∧
    page_text = Text.join (lit " ") (text <$> entries result) ∧
    (∀ (k : nat) w, entries result !! k = Some w →
       ∃ b, word_box (quad w) = inr b ∧
            page_locations !! KInt (Z.of_nat k) = Some b) ∧
    (∀ key, is_Some (page_locations !! key) →
       ∃ k : nat, (k < length (entries result))%nat ∧ key = KInt (Z.of_nat k)).
Proof. apply ocr_page_spec. Qed.

Lemma line_loop_ok (line : list word_info) (page_text : list str)
    (page_locations : page_locs) :
  is_Some (match line_loop line page_text page_locations with
           | inr x => Some x | inl _ => None end)
  ↔ Forall (λ w, quad w ≠ []) line.
Proof.
  revert page_text page_locations.
  induction line as [|w rest IH]; intros pt pl; simpl.
  - split; [constructor | eauto].
  - rewrite Forall_cons. destruct (quad w) as [|pnt q] eqn:Hq.
    + rewrite word_box_nil. split; [by intros [? ?] | by intros [? _]].
    + destruct (word_box_cons pnt q) as [b ->]. rewrite IH.
      split; [by intros ? | by intros [_ ?]].
Qed.

Lemma page_text_of_is_Some (o : ocr_outcome) :
  is_Some (page_text_of o) ↔ readable o.
Proof.
  unfold page_text_of. destruct o as [msg|result]; simpl.
  { split; [by intros [? ?] | done]. }
  assert (∀ pt pl,
    is_Some (match result_loop result pt pl with
             | inr x => Some x | inl _ => None end)
    ↔ Forall (λ line, match line with
                      | None => False
                      | Some ws => Forall (λ w, quad w ≠ []) ws
                      end) result) as Hloop.
  { induction result as [|[line|] rest IH]; intros pt pl; simpl.
    - split; [constructor | eauto].
    - rewrite Forall_cons, <-(line_loop_ok line pt pl).
      destruct (line_loop line pt pl) as [e|[pt1 pl1]].
      + split; [by intros [? ?] | by intros [[? ?] _]].
      + rewrite IH. split; [by split; [eauto |] | by intros [_ ?]].
    - rewrite Forall_cons. split; [by intros [? ?] | by intros [? _]]. }
  rewrite <-(Hloop [] ∅).
  destruct (result_loop result [] ∅) as [e|[pt pl]];
    split; intros [? ?]; eauto; done.
Qed.

(** X5: the [try] body gets through a page exactly when the OCR call
    returned, no line of the result is [None] and every entry has at least
    one point; otherwise the page fails. *)
Theorem ocr_page_readable (o : ocr_outcome) :
  (∃ page_text page_locations, ocr_page o = inr (page_text, page_locations))
  ↔ readable o.
Proof.
  rewrite <-page_text_of_is_Some. unfold page_text_of.
  destruct (ocr_page o) as [e|[t l]]; split.
  - by intros (? & ? & ?).
  - by intros [? ?].
  - by eauto.
  - by eauto.
Qed.

End PageIndex.

(** ** The index after [process_pages] *)

Section FreshIndex.

Variable hash : string → Z.

Lemma pages_loop_current_pdf (total_pages page_num : Z)
    (todo : list ocr_outcome) (self : PDFProcessor) :
  current_pdf (pages_loop total_pages page_num todo self).1 = current_pdf self.
Proof.
  revert page_num self.
  induction todo as [|o rest IH]; intros page_num self; [done |]. simpl.
  destruct (ocr_page o) as [e|[t locs]].
  - specialize (IH (page_num + 1) self).
    by destruct (pages_loop total_pages (page_num + 1) rest self).
  - match goal with
    | |- context [pages_loop _ _ _ ?st] =>
        specialize (IH (page_num + 1) st);
        destruct (pages_loop total_pages (page_num + 1) rest st)
    end.
    done.
Qed.

Lemma pages_loop_locations (total_pages : Z) (p : nat)
    (todo : list ocr_outcome) (self : PDFProcessor) (key : pykey) :
  word_locations (pages_loop total_pages (Z.of_nat p) todo self).1 !! key
  = match key with
    | KInt i =>
        if decide (Z.of_nat p ≤ i)
        then match todo !! Z.to_nat (i - Z.of_nat p) ≫= page_locations_of with
             | Some page_locations => Some page_locations
             | None => word_locations self !! key
             end
        else word_locations self !! key
    | KStr _ => word_locations self !! key
    end.
Proof.
  revert p self. induction todo as [|o rest IH]; intros p self.
  { simpl. destruct key; [case_decide |]; done. }
  simpl pages_loop. replace (Z.of_nat p + 1) with (Z.of_nat (S p)) by lia.
  unfold page_locations_of at 1.
  assert (∀ st : PDFProcessor,
    word_locations st
      = match ocr_page o with
        | inr (_, l) => <[KInt (Z.of_nat p) := l]> (word_locations self)
        | inl _ => word_locations self
        end →
    word_locations (pages_loop total_pages (Z.of_nat (S p)) rest st).1 !! key
    = match key with
      | KInt i =>
          if decide (Z.of_nat p ≤ i)
          then match (o :: rest) !! Z.to_nat (i - Z.of_nat p)
                     ≫= page_locations_of with
               | Some page_locations => Some page_locations
               | None => word_locations self !! key
               end
          else word_locations self !! key
      | KStr _ => word_locations self !! key
      end) as Hstep.
  { intros st Hst. rewrite IH, Hst. destruct key as [i|str].
    - destruct (decide (Z.of_nat (S p) ≤ i)) as [Hi|Hi].
      + rewrite decide_True by lia.
        replace (Z.to_nat (i - Z.of_nat p)) with (S (Z.to_nat (i - Z.of_nat (S p))))
          by lia.
        simpl. destruct (rest !! _ ≫= page_locations_of); [done |].
        destruct (ocr_page o) as [e|[t l]]; [done |].
        apply lookup_insert_ne. intros [= Heq]. lia.
      + destruct (decide (Z.of_nat p ≤ i)) as [Hp|Hp].
        * assert (i = Z.of_nat p) as -> by lia.
          replace (Z.to_nat (Z.of_nat p - Z.of_nat p)) with 0%nat by lia.
          simpl. unfold page_locations_of.
          destruct (ocr_page o) as [e|[t l]]; [done |].
          apply lookup_insert_eq.
        * destruct (ocr_page o) as [e|[t l]]; [done |].
          apply lookup_insert_ne. intros [= Heq]. lia.
    - destruct (ocr_page o) as [e|[t l]]; [done |].
      by apply lookup_insert_ne. }
  destruct (ocr_page o) as [e|[t l]] eqn:Ho.
  - specialize (Hstep self eq_refl).
    destruct (pages_loop total_pages (Z.of_nat (S p)) rest self). exact Hstep.
  - match goal with
    | |- context [pages_loop _ _ _ ?st] =>
        specialize (Hstep st eq_refl);
        destruct (pages_loop total_pages (Z.of_nat (S p)) rest st)
    end.
    exact Hstep.
Qed.

Lemma process_pages_lookup (w : world) (self : PDFProcessor) (doc : pdf)
    (key : pykey) :
  current_pdf self = Some doc →
  pages doc ≠ [] →
  current_pdf (process_pages hash w self).1.1 = Some doc ∧
  word_locations (process_pages hash w self).1.1 !! key
  = match key with
    | KInt i =>
        if decide (0 ≤ i) then pages doc !! Z.to_nat i ≫= page_locations_of
        else None
    | KStr _ => None
    end.
Proof.
  intros Hdoc Hpages. unfold process_pages. rewrite Hdoc.
  destruct (pages doc) as [|o rest] eqn:Hp; [done |].
  pose proof (pages_loop_locations (Z.of_nat (length (o :: rest))) 0 (o :: rest)
                {| current_pdf := Some doc; page_texts := [];
                   word_locations := ∅ |} key) as Hloc.
  pose proof (pages_loop_current_pdf (Z.of_nat (length (o :: rest))) 0
                (o :: rest)
                {| current_pdf := Some doc; page_texts := [];
                   word_locations := ∅ |}) as Hcur.
  change (Z.of_nat 0) with 0 in Hloc.
  destruct (pages_loop _ 0 (o :: rest) _) as [st out].
  simpl in Hloc, Hcur.
  assert (word_locations st !! key
          = match key with
            | KInt i =>
                if decide (0 ≤ i)
                then (o :: rest) !! Z.to_nat i ≫= page_locations_of
                else None
            | KStr _ => None
            end) as Hst.
  { rewrite Hloc. destruct key as [i|str]; [|apply lookup_empty].
    case_decide; [|apply lookup_empty]. rewrite Z.sub_0_r.
    generalize ((o :: rest) !! Z.to_nat i ≫= page_locations_of).
    intros [l|]; [done | apply lookup_empty]. }
  destruct (get_cache_path hash w (name doc)); simpl;
    (split; [exact Hcur | exact Hst]).
Qed.

(** X6: after [process_pages] the word locations hold, under the number of
    every page that got through (its real index in the document, from 0),
    the locations of that page, and nothing under any other key; the
    document of the processor is the same as before. *)
Theorem process_pages_locations (w : world) (self : PDFProcessor) (doc : pdf)
    (key : pykey) :
  current_pdf self = Some doc →
  pages doc ≠ [] →
  current_pdf (process_pages hash w self).1.1 = Some doc ∧
  word_locations (process_pages hash w self).1.1 !! key
  = match key with
    | KInt i =>
        if decide (0 ≤ i) then pages doc !! Z.to_nat i ≫= page_locations_of
        else None
    | KStr _ => None
    end.
Proof. apply process_pages_lookup. Qed.

Lemma omap_lookup_all {A B} (f : A → option B) (l : list A) (n : nat) :
  Forall (λ x, is_Some (f x)) l → omap f l !! n = l !! n ≫= f.
Proof.
  revert n. induction l as [|x l IH]; intros n Hall; [done |].
  apply Forall_cons in Hall as [[y Hy] Hall]. simpl. rewrite Hy.
  destruct n as [|n]; simpl; [done | by apply IH].
Qed.

(** X7: when every page of the document gets through, [process_pages]
    leaves one page text per page, in page order, and the locations of
    every page under its page number. *)
Theorem process_pages_all_readable (w : world) (self : PDFProcessor)
    (doc : pdf) :
  current_pdf self = Some doc →
  pages doc ≠ [] →
  Forall readable (pages doc) →
  length (page_texts (process_pages hash w self).1.1) = length (pages doc) ∧
  ∀ (n : nat) o, pages doc !! n = Some o →
    ∃ page_text page_locations,
      ocr_page o = inr (page_text, page_locations) ∧
      page_texts (process_pages hash w self).1.1 !! n = Some page_text ∧
      word_locations (process_pages hash w self).1.1 !! KInt (Z.of_nat n)
        = Some page_locations.
Proof.
  intros Hdoc Hpages Hall.
  assert (Forall (λ o, is_Some (page_text_of o)) (pages doc)) as Hsome.
  { eapply Forall_impl; [exact Hall |]. intros o. apply page_text_of_is_Some. }
  rewrite (process_pages_texts hash w self doc Hdoc Hpages). split.
  - clear -Hsome.
    induction (pages doc) as [|o rest IH]; [done |].
    apply Forall_cons in Hsome as [[t Ht] Hrest].
    change (omap page_text_of (o :: rest))
      with (match page_text_of o with
            | Some y => y :: omap page_text_of rest
            | None => omap page_text_of rest
            end).
    rewrite Ht. simpl length. f_equal. by apply IH.
  - intros n o Hn.
    destruct (process_pages_lookup w self doc (KInt (Z.of_nat n)) Hdoc Hpages)
      as [_ Hloc].
    rewrite Hloc, decide_True, Nat2Z.id, Hn by lia.
    rewrite omap_lookup_all, Hn by done. simpl.
    unfold page_text_of, page_locations_of.
    destruct (ocr_page o) as [e|[t l]] eqn:Ho.
    + rewrite Forall_forall in Hsome.
      specialize (Hsome o (list_elem_of_lookup_2 _ _ _ Hn)).
      unfold page_text_of in Hsome. rewrite Ho in Hsome. by destruct Hsome.
    + by exists t, l.
Qed.

(** X8: [process_pages] changes nothing of the file system but the cache
    file of its document: modification times and documents stay, and so
    does every other file of the cache directory. *)
Theorem process_pages_frame (w : world) (self : PDFProcessor) (path : string) :
  (∀ doc, current_pdf self = Some doc →
          get_cache_path hash w (name doc) ≠ inr path) →
  mtimes (process_pages hash w self).1.2 = mtimes w ∧
  documents (process_pages hash w self).1.2 = documents w ∧
  files (process_pages hash w self).1.2 !! path = files w !! path.
Proof.
  intros Hpath. unfold process_pages.
  destruct (current_pdf self) as [doc|]; [|done].
  destruct (pages doc) as [|o rest]; [done |].
  destruct (pages_loop _ 0 (o :: rest) _) as [st out].
  specialize (Hpath doc eq_refl).
  destruct (get_cache_path hash w (name doc)) as [e|cache_path]; [done |].
  simpl. split; [done |]. split; [done |].
  apply lookup_insert_ne. by intros ->.
Qed.

End FreshIndex.

Lemma process_pages_locations_witness :
  current_pdf (load_pdf length_hash sample_world new_processor "a.pdf").1.2
    = Some {| name := "a.pdf"; pages := two_pages |} ∧
  two_pages ≠ [] ∧
  current_pdf
    (process_pages length_hash sample_world
       (load_pdf length_hash sample_world new_processor "a.pdf").1.2).1.1
    = Some {| name := "a.pdf"; pages := two_pages |} ∧
  word_locations
    (process_pages length_hash sample_world
       (load_pdf length_hash sample_world new_processor "a.pdf").1.2).1.1
    !! KInt 1
  = (if decide (0 ≤ 1)
     then two_pages !! Z.to_nat 1 ≫= page_locations_of else None).
Proof.
  assert (current_pdf
            (load_pdf length_hash sample_world new_processor "a.pdf").1.2
          = Some {| name := "a.pdf"; pages := two_pages |}) as Hdoc
    by (vm_compute; reflexivity).
  assert (two_pages ≠ []) as Hne by discriminate.
  split; [exact Hdoc |]. split; [exact Hne |].
  exact (process_pages_locations length_hash sample_world _ _ (KInt 1) Hdoc Hne).
Defined.

Lemma process_pages_all_readable_witness :
  current_pdf (load_pdf length_hash sample_world new_processor "b.pdf").1.2
    = Some {| name := "b.pdf"; pages := one_page |} ∧
  one_page ≠ [] ∧
  Forall readable one_page ∧
  length (page_texts
            (process_pages length_hash sample_world
               (load_pdf length_hash sample_world new_processor "b.pdf").1.2).1.1)
  = length one_page.
Proof.
  assert (current_pdf
            (load_pdf length_hash sample_world new_processor "b.pdf").1.2
          = Some {| name := "b.pdf"; pages := one_page |}) as Hdoc
    by (vm_compute; reflexivity).
  assert (one_page ≠ []) as Hne by discriminate.
  assert (Forall readable one_page) as Hall.
  { repeat constructor; discriminate. }
  split; [exact Hdoc |]. split; [exact Hne |]. split; [exact Hall |].
  exact (proj1 (process_pages_all_readable length_hash sample_world _ _
                  Hdoc Hne Hall)).
Defined.

Lemma process_pages_frame_witness :
  (∀ doc,
     current_pdf (load_pdf length_hash sample_world new_processor "b.pdf").1.2
       = Some doc →
     get_cache_path length_hash sample_world (name doc)
     ≠ inr "ocr_cache/other.json"%string) ∧
  files (process_pages length_hash sample_world
           (load_pdf length_hash sample_world new_processor "b.pdf").1.2).1.2
    !! "ocr_cache/other.json"%string
  = files sample_world !! "ocr_cache/other.json"%string.
Proof.
  assert (∀ doc,
     current_pdf (load_pdf length_hash sample_world new_processor "b.pdf").1.2
       = Some doc →
     get_cache_path length_hash sample_world (name doc)
     ≠ inr "ocr_cache/other.json"%string) as Hpath.
  { intros doc Hdoc. vm_compute in Hdoc. injection Hdoc as <-.
    vm_compute. discriminate. }
  split; [exact Hpath |].
  exact (proj2 (proj2 (process_pages_frame length_hash sample_world _
                         "ocr_cache/other.json" Hpath))).
Defined.

(** ** From the OCR entry to the highlight *)

Section Highlight.

Import Text.

(** X9: in an index that holds a page as [process_pages] stores it, when no
    OCR token of the page is empty or holds white space, a match that starts
    where the entry of ordinal [k] starts carries the rectangle computed for
    that entry. *)
Theorem fresh_index_bbox (self : PDFProcessor) (keyword page_text : str)
    (r : SearchResult) (n k : nat) (result : list (option (list word_info)))
    (page_locations : page_locs) (w : word_info) :
  page_texts self !! n = Some page_text →
  word_locations self !! KInt (Z.of_nat n) = Some page_locations →
  ocr_page (Returns result) = inr (page_text, page_locations) →
  Forall clean_token (text <$> entries result) →
  entries result !! k = Some w →
  r ∈ search_text self keyword →
  page r = Z.of_nat n + 1 →
  position r = Z.of_nat (token_offset (text <$> entries result) k) →
  word_box (quad w) = inr (bbox r).
Proof.
  intros Htext Hlocs Hpage Hclean Hk Hr Hpg Hpos.
  apply ocr_page_spec in Hpage as (result' & [= <-] & Hjoin & Hboxes & _).
  destruct (Hboxes k w Hk) as (b & Hb & Hl).
  apply elem_of_search_text in Hr as (n' & s & t & Hn' & _ & ->).
  simpl in Hpg, Hpos. assert (n' = n) as -> by lia.
  rewrite Htext in Hn'. injection Hn' as <-.
  apply Nat2Z.inj in Hpos. subst s. simpl.
  replace (Z.of_nat n + 1 - 1) with (Z.of_nat n) by lia.
  rewrite Hlocs. simpl. rewrite Hjoin.
  rewrite word_index_token_offset; [by rewrite Hl | done |].
  rewrite length_fmap. by apply lookup_lt_Some in Hk.
Qed.

End Highlight.

Lemma fresh_index_bbox_witness :
  page_texts indexed_b !! 0%nat = Some (lit "hello") ∧
  word_locations indexed_b !! KInt (Z.of_nat 0)
    = Some {[KInt 0 := Tuple 1 2 5 4]} ∧
  ocr_page (Returns [Some [word "hello" 2 4 10 8]])
    = inr (lit "hello", {[KInt 0 := Tuple 1 2 5 4]}) ∧
  Forall clean_token
    (text <$> entries [Some [word "hello" 2 4 10 8]]) ∧
  entries [Some [word "hello" 2 4 10 8]] !! 0%nat
    = Some (word "hello" 2 4 10 8) ∧
  hello_result (Tuple 1 2 5 4) ∈ search_text indexed_b (lit "hello") ∧
  word_box (quad (word "hello" 2 4 10 8))
    = inr (bbox (hello_result (Tuple 1 2 5 4))).
Proof.
  assert (page_texts indexed_b !! 0%nat = Some (lit "hello")) as H1
    by (vm_compute; reflexivity).
  assert (word_locations indexed_b !! KInt (Z.of_nat 0)
          = Some {[KInt 0 := Tuple 1 2 5 4]}) as H2
    by (vm_compute; reflexivity).
  assert (ocr_page (Returns [Some [word "hello" 2 4 10 8]])
          = inr (lit "hello", {[KInt 0 := Tuple 1 2 5 4]})) as H3
    by (vm_compute; reflexivity).
  assert (Forall clean_token
            (text <$> entries [Some [word "hello" 2 4 10 8]])) as H4.
  { repeat constructor; done. }
  assert (entries [Some [word "hello" 2 4 10 8]] !! 0%nat
          = Some (word "hello" 2 4 10 8)) as H5 by reflexivity.
  assert (hello_result (Tuple 1 2 5 4) ∈ search_text indexed_b (lit "hello"))
    as H6.
  { vm_compute. left. }
  repeat (split; [assumption |]).
  exact (fresh_index_bbox indexed_b (lit "hello") (lit "hello")
           (hello_result (Tuple 1 2 5 4)) 0 0 _ _ _ H1 H2 H3 H4 H5 H6
           eq_refl eq_refl).
Defined.

(** ** More on the cache *)



Section CacheRoundTrip.

Variable hash : string → Z.


(** X11: [load_pdf] returns [True] exactly when the document opens, its
    modification time can be read and the cache file is absent or decodes
    with both members; then the index is that of the cache file, or empty
    when there is none, whatever it held before.  When the document does
    not open, the processor is left as it was. *)
Theorem load_pdf_outcome (w : world) (self : PDFProcessor) (pdf_path : string) :
  ((load_pdf hash w self pdf_path).1.1 = true ↔
   ∃ pgs cache_path,
     documents w !! pdf_path = Some pgs ∧
     get_cache_path hash w pdf_path = inr cache_path ∧
     (files w !! cache_path = None ∨
      ∃ texts locs,
        files w !! cache_path = Some (Decoded (Some texts) (Some locs)))) ∧
  ((load_pdf hash w self pdf_path).1.1 = true →
   ∀ other,
     (load_pdf hash w other pdf_path).1.2 = (load_pdf hash w self pdf_path).1.2) ∧
  (documents w !! pdf_path = None →
   (load_pdf hash w self pdf_path).1.2 = self).
Proof.
  split; [split | split].
  - unfold load_pdf. destruct (documents w !! pdf_path) as [pgs|]; [|done].
    simpl. destruct (get_cache_path hash w pdf_path) as [e|cache_path];
      [done |].
    simpl.
    destruct (files w !! cache_path) as [[msg|[texts|] [locs|]]|] eqn:Hfile;
      simpl; try done; intros _; exists pgs, cache_path;
      (split; [done |]; split; [done |]); [right; by eauto | by left].
  - intros (pgs & cache_path & Hd & Hc & Hf). unfold load_pdf.
    rewrite Hd. simpl. rewrite Hc.
    by destruct Hf as [->|(texts & locs & ->)].
  - unfold load_pdf. destruct (documents w !! pdf_path) as [pgs|]; [|done].
    simpl. destruct (get_cache_path hash w pdf_path) as [e|cache_path];
      [done |].
    by destruct (files w !! cache_path) as [[msg|[texts|] [locs|]]|].
  - intros Hd. unfold load_pdf. by rewrite Hd.
Qed.

(** X12: pressing "Process PDF" a second time (same interpreter, same
    modification time) changes neither the index nor the file system: the
    cache is read, the pages are processed again and the same cache file
    is written. *)
Theorem process_pdf_twice (w w' : world) (self st : PDFProcessor)
    (pdf_path : string) (pgs : list ocr_outcome) (out : list signal) :
  pdf_path ≠ ""%string →
  documents w !! pdf_path = Some pgs →
  pgs ≠ [] →
  (load_pdf hash w self pdf_path).1.1 = true →
  MainWindow.process_pdf hash w self pdf_path = (st, w', out) →
  (MainWindow.process_pdf hash w' st pdf_path).1 = (st, w').
Proof.
  intros Hne Hdocs Hpgs Hload Hproc.
  unfold MainWindow.process_pdf in *.
  destruct pdf_path as [|c rest]; [done |].
  set (path := String c rest) in *.
  assert (∃ self1 out1,
    load_pdf hash w self path = (true, self1, out1) ∧
    current_pdf self1 = Some {| name := path; pages := pgs |}) as
    (self1 & out1 & Hl1 & Hcur1).
  { unfold load_pdf in *. rewrite Hdocs in *. simpl in *.
    destruct (get_cache_path hash w path); [done |].
    destruct (files w !! _) as [[?|[?|] [?|]]|]; try done; by eauto. }
  rewrite Hl1 in Hproc.
  assert (∃ mtime, mtimes w !! path = Some mtime) as [mtime Hm].
  { unfold load_pdf, get_cache_path in Hl1. rewrite Hdocs in Hl1.
    destruct (mtimes w !! path); [by eauto | done]. }
  destruct (process_pages hash w self1) as [[st1 w1] out2] eqn:Hpp.
  injection Hproc as -> -> _.
  pose proof (process_pages_then_load_pdf hash w w' self1 st st
                {| name := path; pages := pgs |} mtime out2
                Hcur1 Hpgs Hdocs Hm Hpp) as Hl2.
  simpl in Hl2. rewrite Hl2.
  unfold process_pages in *. rewrite Hcur1 in Hpp. simpl in *.
  destruct pgs as [|o pgs']; [done |].
  destruct (pages_loop _ 0 (o :: pgs') _) as [st2 out3] eqn:Hloop.
  unfold get_cache_path in *. rewrite Hm in Hpp.
  injection Hpp as <- <- <-. simpl. rewrite Hm. simpl.
  by rewrite insert_insert_eq.
Qed.

End CacheRoundTrip.


Lemma process_pdf_twice_witness :
  "b.pdf"%string ≠ ""%string ∧
  (MainWindow.process_pdf length_hash cached_world indexed_b "b.pdf").1
  = (indexed_b, cached_world).
Proof.
  split; [discriminate |].
  apply (process_pdf_twice length_hash sample_world cached_world new_processor
           indexed_b "b.pdf" one_page [progress_updated 1 1]).
  - discriminate.
  - vm_compute. reflexivity.
  - discriminate.
  - vm_compute. reflexivity.
  - vm_compute. reflexivity.
Defined.

(** ** The rectangle of an OCR entry *)

Section WordBox.

Local Open Scope Q_scope.

Lemma foldl_min_le (rest : list Q) (x : Q) :
  foldl (λ m y, if Qle_bool m y then m else y) x rest <= x ∧
  Forall (λ y, foldl (λ m y, if Qle_bool m y then m else y) x rest <= y) rest.
Proof.
  revert x. induction rest as [|y rest IH]; intros x; simpl.
  - split; [apply Qle_refl | constructor].
  - destruct (IH (if Qle_bool x y then x else y)) as [Hm Hrest].
    assert ((if Qle_bool x y then x else y) <= x ∧
            (if Qle_bool x y then x else y) <= y) as [Hx Hy].
    { destruct (Qle_bool x y) eqn:E.
      - split; [apply Qle_refl | by apply Qle_bool_iff].
      - split; [|apply Qle_refl]. apply Qlt_le_weak, Qnot_le_lt.
        intros Hle. apply Qle_bool_iff in Hle. congruence. }
    split; [by eapply Qle_trans |].
    constructor; [by eapply Qle_trans | done].
Qed.

Lemma foldl_max_ge (rest : list Q) (x : Q) :
  x <= foldl (λ m y, if Qle_bool y m then m else y) x rest ∧
  Forall (λ y, y <= foldl (λ m y, if Qle_bool y m then m else y) x rest) rest.
Proof.
  revert x. induction rest as [|y rest IH]; intros x; simpl.
  - split; [apply Qle_refl | constructor].
  - destruct (IH (if Qle_bool y x then x else y)) as [Hm Hrest].
    assert (x <= (if Qle_bool y x then x else y) ∧
            y <= (if Qle_bool y x then x else y)) as [Hx Hy].
    { destruct (Qle_bool y x) eqn:E.
      - split; [apply Qle_refl | by apply Qle_bool_iff].
      - split; [|apply Qle_refl]. apply Qlt_le_weak, Qnot_le_lt.
        intros Hle. apply Qle_bool_iff in Hle. congruence. }
    split; [by eapply Qle_trans |].
    constructor; [by eapply Qle_trans | done].
Qed.

Lemma py_min_le (xs : list Q) (m : Q) :
  py_min xs = Some m → Forall (λ x, m <= x) xs.
Proof.
  destruct xs as [|x rest]; [done |]. intros [= <-].
  destruct (foldl_min_le rest x). by constructor.
Qed.

Lemma py_max_ge (xs : list Q) (m : Q) :
  py_max xs = Some m → Forall (λ x, x <= m) xs.
Proof.
  destruct xs as [|x rest]; [done |]. intros [= <-].
  destruct (foldl_max_ge rest x). by constructor.
Qed.

Lemma half_le (a b : Q) : a <= b → half a <= half b.
Proof.
  intros Hab. unfold half. rewrite !Qred_correct.
  apply Qmult_le_compat_r; [done | discriminate].
Qed.

Lemma half_le_l (a b : Q) : a <= b → half a <= b / 2.
Proof.
  intros Hab. unfold half. rewrite Qred_correct.
  apply Qmult_le_compat_r; [done | discriminate].
Qed.

Lemma half_le_r (a b : Q) : a <= b → a / 2 <= half b.
Proof.
  intros Hab. unfold half. rewrite Qred_correct.
  apply Qmult_le_compat_r; [done | discriminate].
Qed.

(** X13: the rectangle stored for an OCR entry exists exactly when the
    entry has at least one point; it is then a 4-tuple with [x0 <= x1] and
    [y0 <= y1] that holds every point of the entry, halved. *)
Theorem word_box_bounds (q : list (Q * Q)) :
  (q = [] ↔ ∃ e, word_box q = inl e) ∧
  ∀ b, word_box q = inr b →
    ∃ x0 y0 x1 y1,
      b = Tuple x0 y0 x1 y1 ∧ x0 <= x1 ∧ y0 <= y1 ∧
      Forall (λ pt, x0 <= fst pt / 2 ∧ fst pt / 2 <= x1 ∧
                    y0 <= snd pt / 2 ∧ snd pt / 2 <= y1) q.
Proof.
  split.
  - destruct q as [|pt q]; [by split; eauto |].
    destruct (word_box_cons pt q) as [b Hb]. rewrite Hb.
    split; [done | by intros [? ?]].
  - intros b. destruct q as [|pt0 q0]; [done |].
    remember (pt0 :: q0) as q eqn:Hq. unfold word_box.
    destruct (py_min (q.*1)) as [a|] eqn:Ha; [|done].
    destruct (py_min (q.*2)) as [c|] eqn:Hc; [|done].
    destruct (py_max (q.*1)) as [d|] eqn:Hd; [|done].
    destruct (py_max (q.*2)) as [e|] eqn:He; [|done].
    intros [= <-]. exists (half a), (half c), (half d), (half e).
    apply py_min_le in Ha, Hc. apply py_max_ge in Hd, He.
    rewrite Forall_fmap in Ha, Hc, Hd, He.
    assert (Forall (λ pt, half a <= fst pt / 2 ∧ fst pt / 2 <= half d ∧
                          half c <= snd pt / 2 ∧ snd pt / 2 <= half e) q)
      as Hall.
    { rewrite Forall_forall in *. intros pt Hpt.
      specialize (Ha pt Hpt). specialize (Hc pt Hpt).
      specialize (Hd pt Hpt). specialize (He pt Hpt). simpl in *.
      auto using half_le_l, half_le_r. }
    split; [done |]. subst q.
    pose proof Hall as [(H1 & H2 & H3 & H4) _]%Forall_cons.
    split; [by eapply Qle_trans |]. split; [by eapply Qle_trans |]. done.
Qed.

End WordBox.

(** ** The viewer *)

Section ViewerFacts.

Import Viewer.

Lemma clamp_idem (lo hi x : Z) : clamp lo hi (clamp lo hi x) = clamp lo hi x.
Proof. unfold clamp. lia. Qed.

Lemma ends_bind (P Q : PDFViewer → Prop) (o : outcome)
    (k : PDFViewer → outcome) :
  ends Q o → (∀ v, Q v → P v) → (∀ v, Q v → ends P (k v)) → ends P (bind o k).
Proof. destruct o; simpl; auto. Qed.

Lemma ends_impl (P Q : PDFViewer → Prop) (o : outcome) :
  ends Q o → (∀ v, Q v → P v) → ends P o.
Proof. destruct o; simpl; auto. Qed.

Lemma render_page_ends (v : PDFViewer) : ends (λ v', v' = v) (render_page v).
Proof.
  unfold render_page. destruct (current_pdf v) as [doc|]; [|done].
  destruct (pages doc); [done |].
  case_bool_decide; [|done]. by destruct (forallb drawable (highlights v)).
Qed.

Lemma render_page_ok (v : PDFViewer) :
  page_in_range v → forallb drawable (highlights v) = true →
  render_page v = Ok v.
Proof.
  unfold render_page, page_in_range. intros Hrange Hhl.
  destruct (current_pdf v) as [doc|]; [|done].
  destruct (pages doc) as [|o rest] eqn:Hp; [done |].
  rewrite bool_decide_eq_true_2, Hhl; [done |].
  specialize (Hrange ltac:(done)). lia.
Qed.

(** Case analysis on the calls of [render_page] in the goal. *)
Ltac render_cases :=
  repeat match goal with
         | |- context [render_page ?x] =>
             let H := fresh "Hrender" in
             pose proof (render_page_ends x) as H;
             destruct (render_page x); simpl in H; try done; subst; simpl
         end.

(** X14: the calls between [show_page] and the spin box end: one call of
    [show_page] from the spin box is the deepest there is, whatever the
    state of the viewer. *)
Theorem show_page_fuel_enough (fuel : nat) (v : PDFViewer) (page_num : Z) :
  show_page_fuel (S (S fuel)) v page_num = show_page v page_num ∧
  show_page v page_num ≠ OutOfFuel.
Proof.
  unfold show_page. simpl. destruct (current_pdf v) as [doc|] eqn:Hdoc; [|done].
  destruct (pages doc) as [|o rest] eqn:Hp; [done |].
  case_bool_decide; [|done]. simpl.
  case_bool_decide as Hval; simpl.
  - split; [done |]. unfold clear_highlights. render_cases.
  - set (value := clamp (spin_minimum v) (spin_maximum v) (page_num + 1)) in *.
    replace (value - 1 + 1) with value by lia.
    rewrite (bool_decide_eq_true_2 (clamp _ _ value = value))
      by (unfold value; apply clamp_idem).
    split; [done |]. unfold clear_highlights.
    case_bool_decide; simpl; render_cases.
Qed.

Lemma shown_dec (v : PDFViewer) (page_num : Z) :
  shown v page_num ∨ ¬ shown v page_num.
Proof.
  unfold shown. destruct (current_pdf v) as [doc|]; [|right; by intros (? & ? & _)].
  destruct (pages doc) as [|o rest] eqn:Hp.
  { right. intros (d & [= <-] & Hne & _). by rewrite Hp in Hne. }
  destruct (decide (0 ≤ page_num < Z.of_nat (length (o :: rest)))) as [Hr|Hr].
  - left. exists doc. rewrite Hp. by eauto.
  - right. intros (d & [= <-] & _ & Hd). by rewrite Hp in Hd.
Qed.

Lemma show_page_general (v : PDFViewer) (page_num : Z) :
  ends_with
    (λ v', current_pdf v' = current_pdf v ∧
           spin_minimum v' = spin_minimum v ∧
           spin_maximum v' = spin_maximum v ∧
           (shown v page_num → page_in_range v' ∧ highlights v' = []) ∧
           (shown v page_num → spin_in_step v →
              current_page v' = page_num ∧ spin_value v' = page_num + 1) ∧
           (¬ shown v page_num → v' = v))
    (λ v', current_pdf v' = current_pdf v ∧ page_in_range v' ∧
           forallb drawable (highlights v) = false)
    (show_page v page_num).
Proof.
  assert (∀ P : Prop, current_pdf v = None → shown v page_num → P) as Hnone.
  { intros P Hd (d & Hd' & _). congruence. }
  assert (∀ (P : Prop) doc, current_pdf v = Some doc → pages doc = [] →
                            shown v page_num → P) as Hempty.
  { intros P doc Hd Hp (d & Hd' & Hne & _). congruence. }
  assert (∀ (P : Prop) doc, current_pdf v = Some doc →
            ¬ 0 ≤ page_num < Z.of_nat (length (pages doc)) →
            shown v page_num → P) as Hout.
  { intros P doc Hd Hr (d & Hd' & _ & Hr'). congruence. }
  unfold show_page. simpl.
  destruct (current_pdf v) as [doc|] eqn:Hdoc.
  2: { simpl. repeat split; try done; by eapply Hnone. }
  destruct (pages doc) as [|o rest] eqn:Hp.
  { simpl. repeat split; try done; by eapply Hempty. }
  case_bool_decide as Hrange.
  2: { simpl. rewrite <-Hp in Hrange. repeat split; try done; by eapply Hout. }
  assert (∀ pg hs lo hi val,
    0 ≤ pg < Z.of_nat (length (o :: rest)) →
    page_in_range {| current_pdf := Some doc; current_page := pg;
                     highlights := hs; spin_minimum := lo;
                     spin_maximum := hi; spin_value := val |}) as Hin.
  { intros. unfold page_in_range. simpl. by rewrite Hp. }
  assert (spin_in_step v →
          clamp (spin_minimum v) (spin_maximum v) (page_num + 1)
          = page_num + 1) as Hclamp.
  { intros [Hlo Hhi]. rewrite Hdoc, Hp in Hhi.
    specialize (Hhi ltac:(done)). unfold clamp. simpl in *. lia. }
  assert (shown v page_num) as Hshown.
  { exists doc. rewrite Hp. done. }
  unfold clear_highlights, render_page, with_highlights, with_page, with_spin.
  simpl. rewrite ?Hdoc, ?Hp.
  case_bool_decide as Hval; simpl.
  - rewrite ?Hdoc, ?Hp. rewrite bool_decide_eq_true_2 by (simpl in *; lia).
    destruct (forallb drawable (highlights v)) eqn:Hhl; simpl.
    + rewrite ?Hdoc, ?Hp, bool_decide_eq_true_2 by (simpl in *; lia). simpl.
      rewrite ?Hdoc.
      repeat split; try done; try (by apply Hin).
      rewrite <-Hval. by apply Hclamp.
    + rewrite ?Hdoc. repeat split; by apply Hin.
  - set (value := clamp (spin_minimum v) (spin_maximum v) (page_num + 1)) in *.
    rewrite ?Hdoc, ?Hp. simpl.
    case_bool_decide as Hnested; simpl.
    + replace (value - 1 + 1) with value by lia.
      rewrite (bool_decide_eq_true_2 (clamp _ _ value = value))
        by (unfold value; apply clamp_idem).
      simpl. rewrite ?Hdoc, ?Hp. simpl.
      rewrite bool_decide_eq_true_2 by (simpl in *; lia).
      destruct (forallb drawable (highlights v)) eqn:Hhl; simpl.
      * rewrite ?Hdoc, ?Hp. simpl.
        rewrite bool_decide_eq_true_2 by (simpl in *; lia). simpl.
        rewrite ?Hdoc, ?Hp. simpl.
        rewrite bool_decide_eq_true_2 by (simpl in *; lia). simpl.
        rewrite ?Hdoc, ?Hp. simpl.
        rewrite bool_decide_eq_true_2 by (simpl in *; lia). simpl.
        rewrite ?Hdoc.
        repeat split; try done; try (by apply Hin).
        -- rewrite Hclamp by done. lia.
        -- by apply Hclamp.
      * rewrite ?Hdoc. repeat split; by apply Hin.
    + rewrite ?Hdoc, ?Hp. simpl.
      rewrite bool_decide_eq_true_2 by (simpl in *; lia).
      destruct (forallb drawable (highlights v)) eqn:Hhl; simpl.
      * rewrite ?Hdoc, ?Hp. simpl.
        rewrite bool_decide_eq_true_2 by (simpl in *; lia). simpl.
        rewrite ?Hdoc.
        repeat split; try done; try (by apply Hin).
        by apply Hclamp.
      * rewrite ?Hdoc. repeat split; by apply Hin.
Qed.

Lemma page_in_range_same (v v' : PDFViewer) :
  current_pdf v' = current_pdf v → current_page v' = current_page v →
  page_in_range v → page_in_range v'.
Proof. unfold page_in_range. by intros -> ->. Qed.

(** What [show_page] keeps. *)
Lemma show_page_keeps (v : PDFViewer) (page_num : Z) :
  ends_with
    (λ v', current_pdf v' = current_pdf v ∧
           spin_minimum v' = spin_minimum v ∧
           spin_maximum v' = spin_maximum v ∧
           (page_in_range v ∨ shown v page_num → page_in_range v') ∧
           (forallb drawable (highlights v) = true →
            forallb drawable (highlights v') = true))
    (λ v', current_pdf v' = current_pdf v ∧ page_in_range v' ∧
           forallb drawable (highlights v) = false)
    (show_page v page_num).
Proof.
  pose proof (show_page_general v page_num) as Hgen.
  destruct (show_page v page_num) as [v'|v'|]; simpl in *; [|done..].
  destruct Hgen as (Hpdf & Hlo & Hhi & Hshown & _ & Hsame).
  split; [done |]. split; [done |]. split; [done |].
  destruct (shown_dec v page_num) as [Hs|Hs].
  - destruct (Hshown Hs) as [Hr Hhl]. split; [done |]. by rewrite Hhl.
  - rewrite (Hsame Hs). split; [|done]. by intros [?|?].
Qed.

Lemma set_maximum_keeps (v : PDFViewer) (hi : Z) :
  ends_with
    (λ v', current_pdf v' = current_pdf v ∧
           spin_minimum v' = Z.min (spin_minimum v) hi ∧
           spin_maximum v' = hi ∧
           (page_in_range v → page_in_range v') ∧
           (forallb drawable (highlights v) = true →
            forallb drawable (highlights v') = true))
    (λ v', current_pdf v' = current_pdf v ∧ page_in_range v' ∧
           forallb drawable (highlights v) = false)
    (set_maximum v hi).
Proof.
  unfold set_maximum, page_spin_changed. case_bool_decide; [done |].
  match goal with
  | |- context [show_page ?x ?p] =>
      pose proof (show_page_keeps x p) as Hkeep;
      destruct (show_page x p) as [v'|v'|]; simpl in *; [|done..]
  end.
  destruct Hkeep as (Hpdf & Hlo & Hhi & Hrange & Hhl).
  repeat split; try done. intros Hr. apply Hrange. by left.
Qed.

Lemma page_in_range_with_highlights (v : PDFViewer) (hs : list box) :
  page_in_range v → page_in_range (with_highlights v hs).
Proof. done. Qed.

Lemma step_page_in_range (w : world) (v : PDFViewer) (a : action) :
  page_in_range v → ends page_in_range (step w v a).
Proof.
  intros Hr. destruct a as [path| | |x|r|hs|]; simpl.
  - unfold load_pdf. destruct (documents w !! path) as [pgs|]; [|done].
    set (doc := {| name := path; pages := pgs |}).
    pose proof (set_maximum_keeps (with_pdf v doc) (Z.of_nat (length pgs)))
      as Hmax.
    destruct (set_maximum _ _) as [v2|v2|]; simpl in *; [|by destruct Hmax as (_ & ? & _)|done].
    destruct Hmax as (Hpdf & _).
    pose proof (show_page_general v2 0) as Hshow.
    destruct (show_page v2 0) as [v3|v3|]; simpl in *;
      [|by destruct Hshow as (_ & ? & _)|done].
    destruct Hshow as (Hpdf3 & _ & _ & Hshown & _ & Hsame).
    destruct (shown_dec v2 0) as [Hs|Hs]; [by destruct (Hshown Hs) |].
    rewrite (Hsame Hs). unfold page_in_range. rewrite Hpdf. simpl.
    intros Hne. exfalso. apply Hs. exists doc. rewrite Hpdf. simpl.
    split; [done |]. split; [done |]. destruct pgs; [done | simpl; lia].
  - unfold previous_page. case_bool_decide; [|done].
    pose proof (show_page_keeps v (current_page v - 1)) as Hk.
    destruct (show_page _ _); simpl in *; [|by destruct Hk as (_ & ? & _)|done].
    destruct Hk as (_ & _ & _ & Hk & _). apply Hk. by left.
  - unfold next_page. destruct (current_pdf v) as [doc|] eqn:Hdoc; [|done].
    case_bool_decide; [|done].
    pose proof (show_page_keeps v (current_page v + 1)) as Hk.
    destruct (show_page _ _); simpl in *; [|by destruct Hk as (_ & ? & _)|done].
    destruct Hk as (_ & _ & _ & Hk & _). apply Hk. by left.
  - unfold spin_edit, page_spin_changed. case_bool_decide; [done |].
    match goal with
    | |- context [show_page ?x ?p] =>
        pose proof (show_page_keeps x p) as Hk;
        destruct (show_page x p); simpl in *;
          [|by destruct Hk as (_ & ? & _)|done]
    end.
    destruct Hk as (_ & _ & _ & Hk & _). apply Hk. by left.
  - unfold jump_to_result.
    pose proof (show_page_keeps v (page r - 1)) as Hk.
    destruct (show_page _ _) as [v2|v2|]; simpl in *;
      [|by destruct Hk as (_ & ? & _)|done].
    destruct Hk as (_ & _ & _ & Hk & _).
    unfold set_highlights.
    pose proof (render_page_ends (with_highlights v2 [bbox r])) as Hrender.
    destruct (render_page _); simpl in *; [| |done]; subst;
      apply page_in_range_with_highlights, Hk; by left.
  - unfold set_highlights.
    pose proof (render_page_ends (with_highlights v hs)) as Hrender.
    destruct (render_page _); simpl in *; [| |done]; by subst.
  - unfold clear_highlights.
    pose proof (render_page_ends (with_highlights v [])) as Hrender.
    destruct (render_page _); simpl in *; [| |done]; by subst.
Qed.

(** X15: whatever the user does, the current page of the viewer is a page
    of the document it shows: [render_page] never asks the document for a
    page it does not have. *)
Theorem viewer_page_in_range (w : world) (v : PDFViewer)
    (actions : list action) :
  page_in_range v → ends page_in_range (run w v actions).
Proof.
  revert v. induction actions as [|a rest IH]; intros v Hr; [done |].
  simpl. apply ends_bind with page_in_range; [|done |by apply IH].
  by apply step_page_in_range.
Qed.

Lemma show_page_sound (v : PDFViewer) (page_num : Z) :
  sound v →
  ∃ v', show_page v page_num = Ok v' ∧ sound v' ∧
        current_pdf v' = current_pdf v ∧
        (shown v page_num →
           current_page v' = page_num ∧ highlights v' = [] ∧
           spin_value v' = page_num + 1) ∧
        (¬ shown v page_num → v' = v).
Proof.
  intros (Hr & Hstep & Hhl).
  pose proof (show_page_general v page_num) as Hgen.
  pose proof (show_page_keeps v page_num) as Hkeep.
  destruct (show_page v page_num) as [v'|v'|]; simpl in *;
    [|destruct Hgen as (_ & _ & ?); congruence|done].
  destruct Hgen as (Hpdf & Hlo & Hhi & Hshown & Hpage & Hsame).
  destruct Hkeep as (_ & _ & _ & Hrange & Hhl').
  exists v'. split; [done |]. split.
  { split; [apply Hrange; by left |]. split; [|by apply Hhl'].
    unfold spin_in_step in *. by rewrite Hpdf, Hlo, Hhi. }
  split; [done |]. split; [|done].
  intros Hs. destruct (Hshown Hs) as [_ ?]. destruct (Hpage Hs Hstep).
  done.
Qed.

(** X16: in a viewer whose highlights can all be drawn, no action raises,
    but [Next] without a document and a highlight that does not have four
    coordinates; and the viewer stays such a viewer. *)
Theorem viewer_step_sound (w : world) (v : PDFViewer) (a : action) :
  sound v → safe v a → ∃ v', step w v a = Ok v' ∧ sound v'.
Proof.
  intros Hsound Hsafe. pose proof Hsound as (Hr & Hstep & Hhl).
  destruct a as [path| | |x|r|hs|]; simpl in *.
  - unfold load_pdf. destruct (documents w !! path) as [pgs|]; [|by eauto].
    set (doc := {| name := path; pages := pgs |}).
    pose proof (set_maximum_keeps (with_pdf v doc) (Z.of_nat (length pgs)))
      as Hmax.
    destruct (set_maximum _ _) as [v2|v2|]; simpl in *;
      [|destruct Hmax as (_ & _ & ?); congruence|done].
    destruct Hmax as (Hpdf & Hlo & Hhi & _ & Hhl2).
    pose proof (show_page_general v2 0) as Hgen.
    pose proof (show_page_keeps v2 0) as Hkeep.
    destruct (show_page v2 0) as [v3|v3|]; simpl in *;
      [|destruct Hgen as (_ & _ & ?); rewrite Hhl2 in *; done|done].
    destruct Hgen as (Hpdf3 & Hlo3 & Hhi3 & Hshown & _ & Hsame).
    destruct Hkeep as (_ & _ & _ & _ & Hhl3).
    exists v3. split; [done |]. split; [|split].
    + destruct (shown_dec v2 0) as [Hs|Hs]; [by destruct (Hshown Hs) |].
      rewrite (Hsame Hs). unfold page_in_range. rewrite Hpdf. simpl.
      intros Hne. exfalso. apply Hs. exists doc. rewrite Hpdf. simpl.
      split; [done |]. split; [done |]. destruct pgs; [done | simpl; lia].
    + unfold spin_in_step in *. rewrite Hpdf3, Hlo3, Hhi3, Hpdf, Hlo, Hhi.
      simpl. split; [lia | done].
    + by apply Hhl3, Hhl2.
  - unfold previous_page. case_bool_decide; [|by eauto].
    destruct (show_page_sound v (current_page v - 1) Hsound)
      as (v' & -> & ? & _). by eauto.
  - unfold next_page. destruct (current_pdf v) as [doc|] eqn:Hdoc; [|done].
    case_bool_decide; [|by eauto].
    destruct (show_page_sound v (current_page v + 1) Hsound)
      as (v' & -> & ? & _). by eauto.
  - unfold spin_edit, page_spin_changed. case_bool_decide; [by eauto |].
    match goal with
    | |- context [show_page ?x ?p] =>
        destruct (show_page_sound x p) as (v' & -> & ? & _); [done | by eauto]
    end.
  - unfold jump_to_result.
    destruct (show_page_sound v (page r - 1) Hsound)
      as (v' & -> & (Hr' & Hstep' & Hhl') & _).
    simpl. unfold set_highlights. rewrite render_page_ok.
    + eexists. split; [done |]. split; [done |]. split; [done |].
      simpl. by rewrite Hsafe.
    + done.
    + simpl. by rewrite Hsafe.
  - unfold set_highlights. rewrite render_page_ok; [|done..].
    eexists. by split.
  - unfold clear_highlights. rewrite render_page_ok; [|done..].
    eexists. by split.
Qed.

(** X17: [jump_to_result] leaves the box of the result as the only
    highlight; it shows the page of the result when the document has that
    page, and stays on the current page otherwise. *)
Theorem jump_to_result_highlight (v : PDFViewer) (r : SearchResult) :
  sound v →
  drawable (bbox r) = true →
  ∃ v', jump_to_result v r = Ok v' ∧
        highlights v' = [bbox r] ∧
        current_pdf v' = current_pdf v ∧
        (shown v (page r - 1) → current_page v' = page r - 1) ∧
        (¬ shown v (page r - 1) → current_page v' = current_page v).
Proof.
  intros Hsound Hdraw. unfold jump_to_result.
  destruct (show_page_sound v (page r - 1) Hsound)
    as (v' & -> & (Hr' & Hstep' & Hhl') & Hpdf & Hshown & Hsame).
  simpl. unfold set_highlights. rewrite render_page_ok.
  - eexists. split; [done |]. split; [done |]. split; [done |]. split.
    + intros Hs. by destruct (Hshown Hs).
    + intros Hs. by rewrite (Hsame Hs).
  - done.
  - simpl. by rewrite Hdraw.
Qed.

(** X18: [next_page] and [previous_page] move by one page inside the
    document, clearing the highlights and setting the spin box to the new
    page; at the last page [next_page] does nothing, at the first page
    [previous_page] does nothing. *)
Theorem next_previous_page (v : PDFViewer) (doc : pdf) :
  sound v →
  current_pdf v = Some doc →
  pages doc ≠ [] →
  (if bool_decide (current_page v < Z.of_nat (length (pages doc)) - 1)
   then ∃ v', next_page v = Ok v' ∧
              current_page v' = current_page v + 1 ∧
              highlights v' = [] ∧ spin_value v' = current_page v' + 1
   else next_page v = Ok v) ∧
  (if bool_decide (current_page v > 0)
   then ∃ v', previous_page v = Ok v' ∧
              current_page v' = current_page v - 1 ∧
              highlights v' = [] ∧ spin_value v' = current_page v' + 1
   else previous_page v = Ok v).
Proof.
  intros Hsound Hdoc Hpages. pose proof Hsound as (Hr & _ & _).
  unfold page_in_range in Hr. rewrite Hdoc in Hr. specialize (Hr Hpages).
  unfold next_page, previous_page. rewrite Hdoc. split.
  - case_bool_decide; [|done].
    destruct (show_page_sound v (current_page v + 1) Hsound)
      as (v' & -> & _ & _ & Hshown & _).
    destruct Hshown as (Hp & Hh & Hs); [exists doc; split; [done |]; split; [done | lia] |].
    exists v'. rewrite Hp. done.
  - case_bool_decide; [|done].
    destruct (show_page_sound v (current_page v - 1) Hsound)
      as (v' & -> & _ & _ & Hshown & _).
    destruct Hshown as (Hp & Hh & Hs); [exists doc; split; [done |]; split; [done | lia] |].
    exists v'. rewrite Hp. done.
Qed.

End ViewerFacts.

Lemma viewer_a_sound : Viewer.sound viewer_a.
Proof.
  split; [|split].
  - unfold Viewer.page_in_range. vm_compute. intros _.
    split; [discriminate | reflexivity].
  - split; [vm_compute; discriminate |]. vm_compute. intros _. reflexivity.
  - vm_compute. reflexivity.
Qed.

Lemma viewer_page_in_range_witness :
  Viewer.page_in_range Viewer.init ∧
  Viewer.ends Viewer.page_in_range
    (Viewer.run sample_world Viewer.init
       [Viewer.Load "a.pdf"; Viewer.Next; Viewer.Jump fox_result;
        Viewer.SpinEdit 7; Viewer.Previous]).
Proof.
  assert (Viewer.page_in_range Viewer.init) as Hinit by done.
  split; [exact Hinit |].
  exact (viewer_page_in_range sample_world Viewer.init _ Hinit).
Defined.

Lemma viewer_step_sound_witness :
  Viewer.sound viewer_a ∧
  Viewer.safe viewer_a Viewer.Next ∧
  ∃ v', Viewer.step sample_world viewer_a Viewer.Next = Viewer.Ok v' ∧
        Viewer.sound v'.
Proof.
  assert (Viewer.safe viewer_a Viewer.Next) as Hsafe
    by (vm_compute; discriminate).
  split; [exact viewer_a_sound |]. split; [exact Hsafe |].
  exact (viewer_step_sound sample_world viewer_a Viewer.Next
           viewer_a_sound Hsafe).
Defined.

Lemma jump_to_result_highlight_witness :
  Viewer.drawable (bbox fox_result) = true ∧
  ∃ v', Viewer.jump_to_result viewer_a fox_result = Viewer.Ok v' ∧
        Viewer.highlights v' = [bbox fox_result] ∧
        Viewer.current_pdf v' = Viewer.current_pdf viewer_a ∧
        (Viewer.shown viewer_a (page fox_result - 1) →
           Viewer.current_page v' = page fox_result - 1) ∧
        (¬ Viewer.shown viewer_a (page fox_result - 1) →
           Viewer.current_page v' = Viewer.current_page viewer_a).
Proof.
  assert (Viewer.drawable (bbox fox_result) = true) as Hdraw by reflexivity.
  split; [exact Hdraw |].
  exact (jump_to_result_highlight viewer_a fox_result viewer_a_sound Hdraw).
Defined.

Lemma next_previous_page_witness :
  Viewer.current_pdf viewer_a = Some {| name := "a.pdf"; pages := two_pages |} ∧
  two_pages ≠ [] ∧
  ∃ v', Viewer.next_page viewer_a = Viewer.Ok v' ∧
        Viewer.current_page v' = Viewer.current_page viewer_a + 1 ∧
        Viewer.highlights v' = [] ∧
        Viewer.spin_value v' = Viewer.current_page v' + 1.
Proof.
  assert (Viewer.current_pdf viewer_a
          = Some {| name := "a.pdf"; pages := two_pages |}) as Hdoc
    by (vm_compute; reflexivity).
  assert (two_pages ≠ []) as Hne by discriminate.
  split; [exact Hdoc |]. split; [exact Hne |].
  exact (proj1 (next_previous_page viewer_a _ viewer_a_sound Hdoc Hne)).
Defined.

(** ** The zoom level: bounds *)

Section ZoomBounds.

Local Open Scope Q_scope.

Variable F : floats.

Hypothesis lowest_below_highest : float_0_4 F <= 3.

Hypothesis add_stays_above :
  ∀ x, float_0_4 F <= x → float_0_4 F <= float_add F x (float_0_2 F).

Hypothesis sub_stays_below :
  ∀ x, x <= 3 → float_sub F x (float_0_2 F) <= 3.

Lemma zoom_bounds_step (z : Q) (a : zoom_action) :
  float_0_4 F <= z <= 3 → float_0_4 F <= zoom F z a <= 3.
Proof using lowest_below_highest add_stays_above sub_stays_below.
  intros [Hlo Hhi]. destruct a; simpl.
  - unfold zoom_in, py_min2.
    destruct (Qle_bool 3 (float_add F z (float_0_2 F))) eqn:E.
    + split; [done | apply Qle_refl].
    + split; [by apply add_stays_above |].
      apply Qlt_le_weak, Qnot_le_lt. intros Hle.
      apply Qle_bool_iff in Hle. congruence.
  - unfold zoom_out, py_max2.
    destruct (Qle_bool (float_sub F z (float_0_2 F)) (float_0_4 F)) eqn:E.
    + split; [apply Qle_refl | done].
    + split; [|by apply sub_stays_below].
      apply Qlt_le_weak, Qnot_le_lt. intros Hle.
      apply Qle_bool_iff in Hle. congruence.
Qed.

(** X19: the zoom level stays between the lowest level (0.4) and the highest
    (3.0) through every sequence of [zoom_in] and [zoom_out], however the
    sums are rounded, as long as adding 0.2 to a level that is not below the
    lowest gives no level below it, and subtracting 0.2 from a level that is
    not above the highest gives no level above it. *)
Theorem zoom_level_bounds (z : Q) (actions : list zoom_action) :
  float_0_4 F <= z <= 3 → float_0_4 F <= foldl (zoom F) z actions <= 3.
Proof using lowest_below_highest add_stays_above sub_stays_below.
  revert z. induction actions as [|a rest IH]; intros z Hz; [done |].
  simpl. apply IH. by apply zoom_bounds_step.
Qed.

End ZoomBounds.

Lemma zoom_level_bounds_witness :
  (float_0_4 exact <= 3)%Q ∧
  (float_0_4 exact <= 1 <= 3)%Q ∧
  (float_0_4 exact
   <= foldl (zoom exact) 1 [ZoomOut; ZoomOut; ZoomOut; ZoomOut; ZoomIn]
   <= 3)%Q.
Proof.
  assert (float_0_4 exact <= 3)%Q as H1 by discriminate.
  assert (∀ x, float_0_4 exact <= x →
               float_0_4 exact <= float_add exact x (float_0_2 exact))%Q as H2.
  { intros x Hx. simpl in *. apply Qle_trans with (x + 0)%Q.
    - by rewrite Qplus_0_r.
    - apply Qplus_le_compat; [apply Qle_refl | discriminate]. }
  assert (∀ x, x <= 3 → float_sub exact x (float_0_2 exact) <= 3)%Q as H3.
  { intros x Hx. simpl in *. apply Qle_trans with (x - 0)%Q.
    - apply Qplus_le_compat; [apply Qle_refl | discriminate].
    - unfold Qminus. by rewrite Qplus_0_r. }
  assert (float_0_4 exact <= 1 <= 3)%Q as H4 by (split; discriminate).
  split; [exact H1 |]. split; [exact H4 |].
  exact (zoom_level_bounds exact H1 H2 H3 1 _ H4).
Defined.

(** ** From a search result to the viewer *)

Section ResultsToViewer.

Variable hash : string → Z.

Lemma word_box_drawable (q : list (Q * Q)) (b : box) :
  word_box q = inr b → Viewer.drawable b = true.
Proof.
  unfold word_box.
  destruct (py_min (q.*1)); [|done]. destruct (py_min (q.*2)); [|done].
  destruct (py_max (q.*1)); [|done]. destruct (py_max (q.*2)); [|done].
  by intros [= <-].
Qed.

(** X20: the box of every result of a search can be drawn by the viewer, in
    an index that [process_pages] has built and in an index that
    [load_pdf] has set: it is a rectangle computed for an OCR entry or the
    zero rectangle. *)
Theorem search_results_drawable (w : world) (self : PDFProcessor)
    (keyword : str) (r : SearchResult) :
  ((∃ doc, current_pdf self = Some doc ∧ pages doc ≠ []) →
   r ∈ search_text (process_pages hash w self).1.1 keyword →
   Viewer.drawable (bbox r) = true) ∧
  (∀ pdf_path,
     (load_pdf hash w self pdf_path).1.1 = true →
     r ∈ search_text (load_pdf hash w self pdf_path).1.2 keyword →
     Viewer.drawable (bbox r) = true).
Proof.
  split.
  - intros (doc & Hdoc & Hpages) Hr.
    apply elem_of_search_text in Hr as (n & s & t & _ & _ & ->). simpl.
    destruct (process_pages_lookup hash w self doc
                (KInt (Z.of_nat n + 1 - 1)) Hdoc Hpages) as [_ Hlook].
    rewrite Hlook. case_decide; [|simpl; by rewrite lookup_empty].
    destruct (pages doc !! _) as [o|]; simpl; [|by rewrite lookup_empty].
    unfold page_locations_of.
    destruct (ocr_page o) as [e|[t' l]] eqn:Ho; simpl;
      [by rewrite lookup_empty |].
    apply ocr_page_spec in Ho as (result & _ & _ & Hboxes & Hdom).
    destruct (l !! KInt _) as [b|] eqn:Hb; simpl; [|done].
    destruct (Hdom _ (mk_is_Some _ _ Hb)) as (k & Hk & Hkey).
    destruct (lookup_lt_is_Some_2 _ _ Hk) as [wi Hwi].
    destruct (Hboxes k wi Hwi) as (b' & Hbox & Hl).
    rewrite Hkey, Hl in Hb. injection Hb as <-.
    by eapply word_box_drawable.
  - intros pdf_path Hload Hr.
    apply elem_of_search_text in Hr as (n & s & t & _ & _ & ->). simpl.
    unfold load_pdf in *.
    destruct (documents w !! pdf_path); [|done]. simpl in *.
    destruct (get_cache_path hash w pdf_path); [done |].
    destruct (files w !! _) as [[?|[texts|] [locs|]]|]; try done; simpl.
    by rewrite load_locations_int_key.
Qed.

End ResultsToViewer.

Lemma ocr_page_index_witness :
  ocr_page (Returns [Some [word "hello" 2 4 10 8]])
    = inr (lit "hello", {[KInt 0 := Tuple 1 2 5 4]}) ∧
  ∃ result,
    Returns [Some [word "hello" 2 4 10 8]] = Returns result ∧
    lit "hello" = Text.join (lit " ") (text <$> entries result) ∧
    (∀ (k : nat) w, entries result !! k = Some w →
       ∃ b, word_box (quad w) = inr b ∧
            ({[KInt 0 := Tuple 1 2 5 4]} : page_locs) !! KInt (Z.of_nat k)
            = Some b) ∧
    (∀ key, is_Some (({[KInt 0 := Tuple 1 2 5 4]} : page_locs) !! key) →
       ∃ k : nat, (k < length (entries result))%nat ∧ key = KInt (Z.of_nat k)).
Proof.
  assert (ocr_page (Returns [Some [word "hello" 2 4 10 8]])
          = inr (lit "hello", {[KInt 0 := Tuple 1 2 5 4]})) as Hpage
    by (vm_compute; reflexivity).
  split; [exact Hpage |].
  exact (ocr_page_index _ _ _ Hpage).
Defined.
